(** * hiring_scanner.py: the sales hiring scanner, embedded and verified

    The development follows [hiring_scanner.py] function by function.

    - A Python [str] is a Rocq [string]; its characters are the code
      points below 256 (Latin-1), on which [str.lower], [str.strip] and
      case-insensitive matching are given by the finite tables below.
    - The relevance score is a Python float that only ever holds sums of
      the integers 20 and 5, capped by 100.0; such values are exact in
      binary floating point and are modelled in [Z].
    - The jobs table of the SQLite store is the list of its rows in
      insertion order; the row id is the position in that list.
    - The process-wide throttle map [_host_last_hit] is a [gmap] threaded
      through the fetcher; clock readings are passed in explicitly. *)

From Stdlib Require Import ZArith Ascii String List Bool Lia.
From stdpp Require Import base option list gmap strings.

Local Open Scope string_scope.
Local Open Scope Z_scope.

(** String concatenation unfolds on a constructor in proofs. *)
#[local] Arguments String.append !s1 s2 / : simpl nomatch.

(* ===================================================================== *)
(** * Strings                                                             *)
(* ===================================================================== *)

Module Str.

(** Code point of a character. *)
Definition code (c : ascii) : N := N_of_ascii c.

Definition in_range (lo hi : N) (c : ascii) : bool :=
  (N.leb lo (code c) && N.leb (code c) hi)%bool.

(** The Latin-1 characters with a lower-case counterpart:
    A-Z, U+00C0-U+00D6 and U+00D8-U+00DE. *)
Definition is_upper (c : ascii) : bool :=
  (in_range 65 90 c || in_range 192 214 c || in_range 216 222 c)%bool.

(** [str.lower] on one character. *)
Definition lower_char (c : ascii) : ascii :=
  if is_upper c then ascii_of_N (code c + 32) else c.

(** [s.lower()] *)
Fixpoint lower (s : string) : string :=
  match s with
  | EmptyString => EmptyString
  | String c r => String (lower_char c) (lower r)
  end.

(** [s.startswith(p)] *)
Fixpoint startswith (p s : string) : bool :=
  match p, s with
  | EmptyString, _ => true
  | String _ _, EmptyString => false
  | String a p', String b s' => if Ascii.eqb a b then startswith p' s' else false
  end.

(** [needle in hay] *)
Fixpoint contains (needle hay : string) : bool :=
  match hay with
  | EmptyString => startswith needle EmptyString
  | String _ r => (startswith needle hay || contains needle r)%bool
  end.

(** [c in s] for a single character. *)
Fixpoint mem (c : ascii) (s : string) : bool :=
  match s with
  | EmptyString => false
  | String d r => (Ascii.eqb c d || mem c r)%bool
  end.

Definition is_empty (s : string) : bool :=
  match s with EmptyString => true | String _ _ => false end.

(** Python's [a or b] on strings: the empty string is the only falsy one. *)
Definition or_else (a b : string) : string := if is_empty a then b else a.

(** The longest prefix of [s] whose characters all satisfy [keep]. *)
Fixpoint take_while (keep : ascii -> bool) (s : string) : string :=
  match s with
  | EmptyString => EmptyString
  | String c r => if keep c then String c (take_while keep r) else EmptyString
  end.

(** [s.lstrip(chars)] for a set of characters given as a predicate. *)
Fixpoint drop_while (drop : ascii -> bool) (s : string) : string :=
  match s with
  | EmptyString => EmptyString
  | String c r => if drop c then drop_while drop r else s
  end.

(** Keep the characters that satisfy [keep]
    ([s.replace(b, "")] for every other one-character string [b]). *)
Fixpoint filter (keep : ascii -> bool) (s : string) : string :=
  match s with
  | EmptyString => EmptyString
  | String c r => if keep c then String c (filter keep r) else filter keep r
  end.

(** [s[n:]] *)
Fixpoint substring_from (n : nat) (s : string) : string :=
  match n, s with
  | O, _ => s
  | S _, EmptyString => EmptyString
  | S n', String _ r => substring_from n' r
  end.

Fixpoint forallb (p : ascii -> bool) (s : string) : bool :=
  match s with
  | EmptyString => true
  | String c r => (p c && forallb p r)%bool
  end.

Fixpoint rev_acc (s acc : string) : string :=
  match s with
  | EmptyString => acc
  | String c r => rev_acc r (String c acc)
  end.

Definition rev (s : string) : string := rev_acc s EmptyString.

(** [s.split(sep)] for a one-character separator: the pieces between
    the separators, always at least one piece. *)
Fixpoint split (sep : ascii) (s : string) : list string :=
  match s with
  | EmptyString => [EmptyString]
  | String c r =>
      if Ascii.eqb c sep then EmptyString :: split sep r
      else match split sep r with
           | [] => [String c EmptyString]
           | piece :: pieces => String c piece :: pieces
           end
  end.

(** Unicode white space below 256, as [str.isspace] has it. *)
Definition is_space (c : ascii) : bool :=
  (in_range 9 13 c || in_range 28 32 c || N.eqb (code c) 133 || N.eqb (code c) 160)%bool.

(** [s.strip()] *)
Definition strip (s : string) : string :=
  rev (drop_while is_space (rev (drop_while is_space s))).

(** Case-insensitive match of a lower-case ASCII literal at the start of
    [s] (a literal of a pattern compiled with [re.I]); the rest of [s]
    on success.  Among the code points below U+0100, which are the
    characters of a [string], a letter of the literal is matched by
    itself and by its upper-case form only.  Above U+0100 [re.I] also
    lets U+017F match [s], U+212A match [k] and U+0130 and U+0131 match
    [i]; urls that hold such characters lie outside this development. *)
Fixpoint match_literal_ci (lit s : string) : option string :=
  match lit, s with
  | EmptyString, _ => Some s
  | String _ _, EmptyString => None
  | String a lit', String b s' =>
      if Ascii.eqb a (lower_char b) then match_literal_ci lit' s' else None
  end.

End Str.

(* ===================================================================== *)
(** * Configuration                                                       *)
(* ===================================================================== *)

Definition ROLE_KEYWORDS : list string :=
  [ "Senior Sales Strategy";
    "Sales Strategy";
    "Sales Operations";
    "Global Sales Operations";
    "Revenue Operations";
    "RevOps";
    "Sales Intelligence";
    "Sales Insights";
    "Sales Insights & Analytics";
    "Sales Enablement";
    "Sales Planning & Operations";
    "Sales Transformation";
    "Go-to-Market Strategy";
    "GTM Strategy";
    "Sales Excellence";
    "Sales Analytics";
    "Market Intelligence" ].

(** The secondary terms of [heuristic_score], in the order of the source. *)
Definition BONUS_TERMS : list string :=
  [ "revops"; "revenue operations"; "strategy"; "enablement"; "analytics";
    "intelligence"; "insights"; "market intelligence"; "gtm" ].

(** [RATE_LIMIT_PER_HOST], in clock ticks of one millisecond. *)
Definition RATE_LIMIT_PER_HOST : Z := 1000.

(* ===================================================================== *)
(** * Data model                                                          *)
(* ===================================================================== *)

(** The dataclass [JobPosting]. *)
Record JobPosting := mkJobPosting {
  title : string;
  company : string;
  location : string;
  url : string;
  source : string;
  posted_at : option string;
  captured_at : string;
  match_score : Z
}.

(** The class body of [JobPosting] runs once, when the module is
    imported.  The default of [captured_at] is the expression
    [dt.datetime.utcnow().isoformat()] of that body, so the class stores
    the string the clock gave at that moment. *)
Record JobPosting_class := { captured_at_default : string }.

(** Executing the class statement when the clock reads [utcnow_iso]. *)
Definition define_JobPosting (utcnow_iso : string) : JobPosting_class :=
  {| captured_at_default := utcnow_iso |}.

(** The generated [__init__], called when the clock reads [now] with the
    five required fields and the optional ones ([None] for an omitted
    keyword).  The initializer fills an omitted field from the class and
    does not consult the clock. *)
Definition JobPosting_init (cls : JobPosting_class) (now : string)
    (title company location url source : string)
    (posted_at : option string) (captured_at : option string)
    (match_score : option Z) : JobPosting :=
  {| title := title; company := company; location := location;
     url := url; source := source; posted_at := posted_at;
     captured_at := default (captured_at_default cls) captured_at;
     match_score := default 0 match_score |}.

(* ===================================================================== *)
(** * Python outcomes                                                     *)
(* ===================================================================== *)

(** The exceptions the modelled code meets; all derive from [Exception]. *)
Inductive exn :=
| ValueError
| TimeoutException
| ConnectError
| OtherException (msg : string).

(** What a call leaves its caller with. *)
Inductive outcome (A : Type) :=
| Returns (a : A)
| Raises (e : exn).
Arguments Returns {A} a.
Arguments Raises {A} e.

Record Response := { status_code : Z; text : string }.

(** What awaiting [client.get] gives: an exception of the transport, or
    a response that arrived when the clock read [arrived]. *)
Inductive get_outcome :=
| GetRaised (e : exn)
| GetResponse (arrived : Z) (r : Response).

(* ===================================================================== *)
(** * URL patterns                                                        *)
(* ===================================================================== *)

(** [[^/?#]] *)
Definition slug_char (c : ascii) : bool := negb (Str.mem c "/?#").

(** [re.compile(r"https?://<host>/([^/?#]+)/?", re.I).match(url)], as
    group 1 of the match.  The optional [s] is greedy and nothing after
    it can start with an [s], so there is one way to match; the optional
    final slash changes neither the success nor the group. *)
Definition match_board (host_path url : string) : option string :=
  r1 ← Str.match_literal_ci "http" url;
  let r2 := default r1 (Str.match_literal_ci "s" r1) in
  r3 ← Str.match_literal_ci host_path r2;
  let slug := Str.take_while slug_char r3 in
  if Str.is_empty slug then None else Some slug.

Definition GH_RE_match : string -> option string :=
  match_board "://boards.greenhouse.io/".

Definition LEVER_RE_match : string -> option string :=
  match_board "://jobs.lever.co/".

(* ===================================================================== *)
(** * urllib.parse                                                        *)
(* ===================================================================== *)

Definition is_c0_or_space (c : ascii) : bool := N.leb (Str.code c) 32.

Definition is_tab_or_newline (c : ascii) : bool :=
  (N.eqb (Str.code c) 9 || N.eqb (Str.code c) 10 || N.eqb (Str.code c) 13)%bool.

Definition is_ascii_alpha (c : ascii) : bool :=
  (Str.in_range 65 90 c || Str.in_range 97 122 c)%bool.

(** [scheme_chars]: letters, digits, [+], [-] and [.]. *)
Definition scheme_char (c : ascii) : bool :=
  (is_ascii_alpha c || Str.in_range 48 57 c || Str.mem c "+-.")%bool.

(** [s.partition(sep)] when [sep] occurs: the text before the first
    occurrence and the text after it. *)
Fixpoint partition_char (sep : ascii) (s : string) : option (string * string) :=
  match s with
  | EmptyString => None
  | String c r =>
      if Ascii.eqb c sep then Some (EmptyString, r)
      else match partition_char sep r with
           | Some (before, after) => Some (String c before, after)
           | None => None
           end
  end.

(** The scheme step of [urlsplit]: with [i = url.find(':')], when [i > 0],
    [url[0]] is an ASCII letter and [url[:i]] holds scheme characters
    only, the rest is [url[i+1:]]; otherwise the url is left whole. *)
Definition drop_scheme (url : string) : string :=
  match partition_char ":" url with
  | Some (String c0 _ as scheme, after) =>
      if (is_ascii_alpha c0 && Str.forallb scheme_char scheme)%bool then after else url
  | _ => url
  end.

Section Scanner.

(** [urllib.parse._check_bracketed_netloc], the library's validation of
    a network location that carries a bracketed IP literal: [true] when
    it accepts.  It rests on the [ipaddress] module and differs between
    interpreter releases, so the development is stated for any such
    validation. *)
Variable bracketed_netloc_ok : string -> bool.

(** [urlparse(url).netloc]; [None] when [urlparse] raises [ValueError].
    The url is a [string], so its characters are code points below
    U+0100.  On these [_checknetloc] never raises: it rejects a network
    location that holds a character whose NFKC form contains one of
    [/?#@:], and the first such character is U+2100.  Urls with
    characters from U+0100 on lie outside this development. *)
Definition urlparse_netloc (url : string) : option string :=
  let url := Str.drop_while is_c0_or_space url in
  let url := Str.filter (fun c => negb (is_tab_or_newline c)) url in
  let url := drop_scheme url in
  if Str.startswith "//" url then
    let netloc := Str.take_while slug_char (Str.substring_from 2 url) in
    let opens := Str.mem "[" netloc in
    let closes := Str.mem "]" netloc in
    if xorb opens closes then None
    else if (opens && closes && negb (bracketed_netloc_ok netloc))%bool then None
    else Some netloc
  else Some EmptyString.

(* ===================================================================== *)
(** * Fetcher                                                             *)
(* ===================================================================== *)

(** What [polite_get] leaves behind: its outcome, the throttle map and
    the time it slept before the request. *)
Record fetched := {
  fetch_outcome : outcome (option Response);
  fetch_hits : gmap string Z;
  fetch_slept : Z
}.

(** [polite_get(client, url)], entered when the clock reads [now] with the
    throttle map [hits]; [get] is what the awaited [client.get] gives.
    The host is computed before the [try] block opens, so a [ValueError]
    of [urlparse] leaves the function; inside the block every exception
    becomes [None]. *)
Definition polite_get (hits : gmap string Z) (now : Z) (get : get_outcome)
    (url : string) : fetched :=
  match urlparse_netloc url with
  | None =>
      {| fetch_outcome := Raises ValueError;
         fetch_hits := hits; fetch_slept := 0 |}
  | Some host =>
      let last := default 0 (hits !! host) in
      let wait := Z.max 0 (RATE_LIMIT_PER_HOST - (now - last)) in
      match get with
      | GetResponse arrived r =>
          {| fetch_outcome :=
               if status_code r =? 200 then Returns (Some r) else Returns None;
             fetch_hits := <[host := arrived]> hits;
             fetch_slept := wait |}
      | GetRaised _ =>
          {| fetch_outcome := Returns None; fetch_hits := hits; fetch_slept := wait |}
      end
  end.

(* ===================================================================== *)
(** * Parsers                                                             *)
(* ===================================================================== *)

(** What the source reads of one element selected on a board page:
    [get_text(strip=True)], the [href] attribute, the string of
    [resp.request.url.join(href)] (read for a relative [href] only, and
    only when the call returns; the coroutine of the parser, further
    down, accounts for a call that raises), and the text of the first
    location or office element under the parent [div] when there is
    one. *)
Record gh_card := {
  card_text : string;
  card_href : option string;
  card_joined : string;
  card_location : option string
}.

(** One turn of the loop of [parse_greenhouse]: [None] for [continue]. *)
Definition greenhouse_posting (cls : JobPosting_class) (now : string)
    (company : option string) (job : gh_card) : option JobPosting :=
  let title := card_text job in
  match card_href job with
  | None => None
  | Some href =>
      if (Str.is_empty href || Str.is_empty title)%bool then None
      else
        let full_url := if Str.startswith "http" href then href else card_joined job in
        let loc := default "" (card_location job) in
        Some (JobPosting_init cls now title (default "" company) loc full_url
                "greenhouse" None None None)
  end.

(** [parse_greenhouse], given what the fetch of [url] returned: [None]
    for the sentinel, else the selected elements of the page in document
    order. *)
Definition parse_greenhouse (cls : JobPosting_class) (now : string)
    (url : string) (page : option (list gh_card)) : list JobPosting :=
  match page with
  | None => []
  | Some cards => omap (greenhouse_posting cls now (GH_RE_match url)) cards
  end.

(** The [text] member of a posting object of the listing: absent, a
    string, or present with a value that is not a string (null, a
    number, ...), on which [.strip()] raises. *)
Inductive text_member :=
| TextAbsent
| TextStr (s : string)
| TextNotStr.

(** The [categories] member: absent or falsy (null, an empty object,
    ...), an object with its [location] member ([None] when that is
    absent or null), or a truthy value that is not an object, on which
    [.get] raises. *)
Inductive categories_member :=
| CategoriesFalsy
| CategoriesObject (location : option string)
| CategoriesNotObject.

(** The members of a posting object that the loop reads.  The values
    the loop stores into the posting without inspecting them
    ([hostedUrl], [applyUrl], [location]) are strings when they are
    truthy, as the annotations of [JobPosting] ask of the posting built
    from them; [None] is a member that is absent or falsy (null, zero,
    an empty container), which the loop treats like the empty string.
    A listing with a truthy member of another type there lies outside
    this development.  [item_posted_iso] is what the guarded conversion
    of [createdAt] leaves in [posted_iso] ([None] when the member is
    absent or falsy or the conversion raises). *)
Record lever_item := {
  item_text : text_member;
  item_hostedUrl : option string;
  item_applyUrl : option string;
  item_categories : categories_member;
  item_posted_iso : option string
}.

(** An element the loop over the decoded listing meets: an object, or
    any other value, on which [item.get] raises. *)
Inductive lever_entry :=
| EntryObject (item : lever_item)
| EntryNotObject.

(** One turn of the loop over the listing in [parse_lever]: the posting
    it appends, or [None] when the turn raises. *)
Definition lever_posting (cls : JobPosting_class) (now : string)
    (company url : string) (entry : lever_entry) : option JobPosting :=
  match entry with
  | EntryNotObject => None
  | EntryObject item =>
      match item_text item with
      | TextNotStr => None
      | text =>
          let title :=
            Str.strip (match text with TextStr s => s | _ => "" end) in
          let lever_url :=
            Str.or_else (default "" (item_hostedUrl item))
              (Str.or_else (default "" (item_applyUrl item)) url) in
          match item_categories item with
          | CategoriesNotObject => None
          | categories =>
              let location :=
                match categories with
                | CategoriesObject (Some l) => l
                | _ => ""
                end in
              Some (JobPosting_init cls now title company (Str.or_else location "")
                      lever_url "lever" (item_posted_iso item) None None)
          end
      end
  end.

(** The loop over the listing, inside its [try]: the postings appended
    so far, and whether the loop ran to its [return] ([true]) or was
    left by an exception ([false]). *)
Fixpoint lever_loop (cls : JobPosting_class) (now : string) (company url : string)
    (data : list lever_entry) (postings : list JobPosting)
    : list JobPosting * bool :=
  match data with
  | [] => (postings, true)
  | entry :: rest =>
      match lever_posting cls now company url entry with
      | Some p => lever_loop cls now company url rest (postings ++ [p])%list
      | None => (postings, false)
      end
  end.

(** The first half of [parse_lever]: [listing] is the sequence the loop
    iterates over, [None] when the url does not match, the fetch of the
    listing returned the sentinel, the body did not decode or the
    decoded value cannot be iterated. *)
Definition lever_listing (cls : JobPosting_class) (now : string) (url : string)
    (listing : option (list lever_entry)) : list JobPosting * bool :=
  match LEVER_RE_match url, listing with
  | Some company, Some data => lever_loop cls now company url data []
  | _, _ => ([], false)
  end.

(** An [a[href]] element of a page: its stripped text and its [href]. *)
Record anchor := { anchor_text : string; anchor_href : string }.

(** One turn of the loop of the HTML fallback of [parse_lever]. *)
Definition lever_html_posting (cls : JobPosting_class) (now : string)
    (company : string) (a : anchor) : option JobPosting :=
  if Str.is_empty (anchor_text a) then None
  else Some (JobPosting_init cls now (anchor_text a) company "" (anchor_href a)
               "lever-html" None None None).

(** [parse_lever]: [page] is what the fetch of [url] itself returned,
    read only when the listing half did not return.  The postings the
    loop appended before an exception stay in the list the fallback
    appends to. *)
Definition parse_lever (cls : JobPosting_class) (now : string) (url : string)
    (listing : option (list lever_entry)) (page : option (list anchor))
    : list JobPosting :=
  let '(postings, returned) := lever_listing cls now url listing in
  if returned then postings
  else
    match page with
    | None => []
    | Some anchors =>
        (postings
         ++ omap (lever_html_posting cls now (default "" (LEVER_RE_match url))) anchors)%list
    end.

(** An [a], [h2] or [h3] element of a generic page:
    [get_text(" ", strip=True)], the [href] attribute and the string of
    [resp.request.url.join(href)] when that call returns. *)
Record node := {
  node_text : string;
  node_href : option string;
  node_joined : string
}.

(** [any(k.lower() in text.lower() for k in ROLE_KEYWORDS)] *)
Definition matches_role (text : string) : bool :=
  existsb (fun k => Str.contains (Str.lower k) (Str.lower text)) ROLE_KEYWORDS.

(** One turn of the loop of [parse_generic]. *)
Definition generic_posting (cls : JobPosting_class) (now : string)
    (url : string) (n : node) : option JobPosting :=
  let text := node_text n in
  if Str.is_empty text then None
  else if matches_role text then
    let link :=
      match node_href n with
      | Some href =>
          if Str.is_empty href then url
          else if Str.startswith "http" href then href else node_joined n
      | None => url
      end in
    Some (JobPosting_init cls now text "" "" link "generic" None None None)
  else None.

Definition parse_generic (cls : JobPosting_class) (now : string)
    (url : string) (page : option (list node)) : list JobPosting :=
  match page with
  | None => []
  | Some nodes => omap (generic_posting cls now url) nodes
  end.

(* ===================================================================== *)
(** * Post-processing: normalize, score, dedupe                           *)
(* ===================================================================== *)

(** [parts[-2]] once [len(parts) >= 2]. *)
Definition second_to_last (parts : list string) : string :=
  nth (length parts - 2)%nat parts EmptyString.

Definition normalize_company_from_url (url : string) : string :=
  match GH_RE_match url with
  | Some slug => slug
  | None =>
      match LEVER_RE_match url with
      | Some slug => slug
      | None =>
          match urlparse_netloc url with
          | Some host =>
              let parts := Str.split "." host in
              if (2 <=? length parts)%nat then second_to_last parts else ""
          | None => ""
          end
      end
  end.

(** The first loop of [heuristic_score]: 20 for each role keyword found. *)
Definition keyword_points (title_l : string) (score : Z) : Z :=
  fold_left (fun score k => if Str.contains (Str.lower k) title_l then score + 20 else score)
    ROLE_KEYWORDS score.

(** The second loop: 5 for each bonus term found. *)
Definition bonus_points (title_l : string) (score : Z) : Z :=
  fold_left (fun score bonus => if Str.contains bonus title_l then score + 5 else score)
    BONUS_TERMS score.

(** [job.source in ("greenhouse", "lever")] *)
Definition known_ats (source : string) : bool :=
  (String.eqb source "greenhouse" || String.eqb source "lever")%bool.

(** The score before the final [min]. *)
Definition raw_score (job : JobPosting) : Z :=
  let title_l := Str.lower (title job) in
  let score := keyword_points title_l 0 in
  let score := bonus_points title_l score in
  if known_ats (source job) then score + 5 else score.

Definition heuristic_score (job : JobPosting) : Z :=
  Z.min (raw_score job) 100.

(** The key of [dedupe]. *)
Definition dedupe_key (p : JobPosting) : string * string * string :=
  (Str.lower (title p),
   Str.lower (Str.or_else (company p) (normalize_company_from_url (url p))),
   Str.lower (location p)).

(** The loop of [dedupe], with its two accumulators. *)
Fixpoint dedupe_loop (posts : list JobPosting)
    (seen : gset (string * string * string)) (unique : list JobPosting)
    : list JobPosting :=
  match posts with
  | [] => unique
  | p :: rest =>
      let key := dedupe_key p in
      if decide (key ∈ seen) then dedupe_loop rest seen unique
      else dedupe_loop rest ({[key]} ∪ seen) (unique ++ [p])%list
  end.

Definition dedupe (posts : list JobPosting) : list JobPosting :=
  dedupe_loop posts ∅ [].

(* ===================================================================== *)
(** * Persistence                                                         *)
(* ===================================================================== *)

(** A row of the [jobs] table, without its id. *)
Record Row := {
  row_title : string;
  row_company : string;
  row_location : string;
  row_url : string;
  row_source : string;
  row_posted_at : option string;
  row_captured_at : string;
  row_match_score : Z
}.

(** [ensure_db]: [CREATE TABLE IF NOT EXISTS]; [None] is a database file
    without the table. *)
Definition ensure_db (db : option (list Row)) : list Row := default [] db.

(** The parameter tuple of the [INSERT] statement of [upsert_jobs]. *)
Definition row_of (p : JobPosting) : Row :=
  {| row_title := title p;
     row_company := Str.or_else (company p) (normalize_company_from_url (url p));
     row_location := location p;
     row_url := url p;
     row_source := source p;
     row_posted_at := posted_at p;
     row_captured_at := captured_at p;
     row_match_score := match_score p |}.

(** The [UNIQUE] index on [url]: is some row stored under this url? *)
Definition url_present (u : string) (table : list Row) : bool :=
  existsb (fun r => String.eqb (row_url r) u) table.

(** [INSERT OR IGNORE]: the table afterwards and [cur.rowcount]. *)
Definition insert_or_ignore (table : list Row) (r : Row) : list Row * Z :=
  if url_present (row_url r) table then (table, 0) else ((table ++ [r])%list, 1).

(** The loop of [upsert_jobs]. *)
Fixpoint upsert_loop (posts : list JobPosting) (table : list Row) (inserted : Z)
    : list Row * Z :=
  match posts with
  | [] => (table, inserted)
  | p :: rest =>
      let '(table', rowcount) := insert_or_ignore table (row_of p) in
      upsert_loop rest table' (if rowcount =? 0 then inserted else inserted + 1)
  end.

(** [upsert_jobs(posts)] on the table [table]: the table afterwards and
    the count it returns. *)
Definition upsert_jobs (posts : list JobPosting) (table : list Row) : list Row * Z :=
  upsert_loop posts table 0.

(* ===================================================================== *)
(** * Orchestrator                                                        *)
(* ===================================================================== *)

(** The body of the filter loop of [run_scan] for one posting that
    passed the keyword test: back-fill the company, then score. *)
Definition normalize_and_score (p : JobPosting) : JobPosting :=
  let p1 :=
    {| title := title p;
       company := Str.or_else (company p) (normalize_company_from_url (url p));
       location := location p; url := url p; source := source p;
       posted_at := posted_at p; captured_at := captured_at p;
       match_score := match_score p |} in
  {| title := title p1; company := company p1; location := location p1;
     url := url p1; source := source p1; posted_at := posted_at p1;
     captured_at := captured_at p1; match_score := heuristic_score p1 |}.

(** The filter loop of [run_scan]. *)
Fixpoint filter_and_score (flat : list JobPosting) : list JobPosting :=
  match flat with
  | [] => []
  | p :: rest =>
      if matches_role (title p) then normalize_and_score p :: filter_and_score rest
      else filter_and_score rest
  end.

(** What [run_scan] returns and leaves in the store. *)
Record scan_result := {
  scan_matched : nat;
  scan_inserted : Z;
  scan_persisted : list JobPosting;
  scan_table : list Row
}.

(** [run_scan] from the flattened parser results on: filter and score,
    dedupe, upsert.  [scan_persisted] is the list handed to
    [upsert_jobs]. *)
Definition run_scan (db : option (list Row)) (flat : list JobPosting) : scan_result :=
  let table := ensure_db db in
  let filtered := filter_and_score flat in
  let unique := dedupe filtered in
  let '(table', inserted) := upsert_jobs unique table in
  {| scan_matched := length unique; scan_inserted := inserted;
     scan_persisted := unique; scan_table := table' |}.

(* ===================================================================== *)
(** * Vocabulary of the specification                                     *)
(* ===================================================================== *)

(** An otherwise-identical posting with another title. *)
Definition with_title (job : JobPosting) (t : string) : JobPosting :=
  {| title := t; company := company job; location := location job;
     url := url job; source := source job; posted_at := posted_at job;
     captured_at := captured_at job; match_score := match_score job |}.

(** The (title, company, location) of a posting as [dedupe] compares
    them: lower-cased. *)
Definition posting_triple (p : JobPosting) : string * string * string :=
  (Str.lower (title p), Str.lower (company p), Str.lower (location p)).

(** The row stored under a url: the first row of the table with it. *)
Definition find_url (u : string) (table : list Row) : option Row :=
  List.find (fun r => String.eqb (row_url r) u) table.

(** A url of the board served at [host]: the scheme [http] or [https]
    and the host in any mix of cases, then a non-empty slug that runs up
    to the next [/], [?] or [#] or to the end of the url. *)
Definition board_url (host slug u : string) : Prop :=
  exists scheme h rest : string,
    u = scheme ++ "://" ++ h ++ "/" ++ slug ++ rest
    /\ (Str.lower scheme = "http" \/ Str.lower scheme = "https")
    /\ Str.lower h = host
    /\ Str.is_empty slug = false
    /\ Str.forallb slug_char slug = true
    /\ match rest with
       | EmptyString => True
       | String c _ => slug_char c = false
       end.

(** A label: a string without a dot. *)
Definition dot_free (s : string) : bool := negb (Str.mem "." s).

(** The text after the last [sep] of [s]; all of [s] without a [sep]. *)
Fixpoint after_last (sep : ascii) (s : string) : string :=
  match s with
  | EmptyString => EmptyString
  | String c r =>
      if Str.mem sep r then after_last sep r
      else if Ascii.eqb c sep then r else s
  end.

(** The host inside a network location, as RFC 3986 delimits it: what
    follows the user information, up to the port. *)
Definition host_of_netloc (netloc : string) : string :=
  Str.take_while (fun c => negb (Ascii.eqb c ":")) (after_last "@" netloc).

(** The validation of an interpreter that does not inspect bracketed
    literals (CPython before 3.11.4): every balanced literal passes. *)
Definition accept_bracketed (netloc : string) : bool := true.

(** The class as defined by an import at nine o'clock, and a posting
    constructed half an hour later. *)
Definition sample_class : JobPosting_class :=
  define_JobPosting "2024-05-01T09:00:00.000000".

Definition sample_posting (t c l u s : string) : JobPosting :=
  JobPosting_init sample_class "2024-05-01T09:30:00.000000" t c l u s None None None.

Definition acme_post : JobPosting :=
  sample_posting "Sales Operations Manager" "" "Remote"
    "https://boards.greenhouse.io/acme/jobs/1" "greenhouse".

Definition globex_post : JobPosting :=
  sample_posting "Sales Operations Manager" "" "Remote"
    "https://boards.greenhouse.io/globex/jobs/2" "greenhouse".

Definition acme_repost : JobPosting :=
  sample_posting "SALES OPERATIONS MANAGER" "Acme" "remote"
    "https://jobs.lever.co/acme/77" "lever".

Definition strategy_post : JobPosting :=
  sample_posting "Sales Strategy Lead" "Initech" "Austin"
    "https://careers.initech.example/jobs/9" "generic".

Definition operations_post : JobPosting :=
  sample_posting "Sales Operations Lead" "Initech" "Austin"
    "https://careers.initech.example/jobs/10" "generic".

Definition crowded_post : JobPosting :=
  sample_posting "RevOps & GTM Strategy Manager, Sales Insights & Analytics"
    "Initech" "Austin" "https://careers.initech.example/jobs/11" "generic".

(** A card of a board page with a title and no link. *)
Definition unlinked_card : gh_card :=
  {| card_text := "Sales Operations Manager"; card_href := None;
     card_joined := ""; card_location := Some "Remote" |}.

(** The distinct elements of a list, each at the place of its first
    occurrence. *)
Fixpoint first_mentions (l : list string) : list string :=
  match l with
  | [] => []
  | u :: rest => u :: filter (fun v => v <> u) (first_mentions rest)
  end.

(** How many of [terms] satisfy [found]. *)
Definition hits (found : string -> bool) (terms : list string) : Z :=
  Z.of_nat (length (List.filter found terms)).

(* ===================================================================== *)
(** * Discovery and dispatch                                              *)
(* ===================================================================== *)

Definition SEARCH_SITES : list string :=
  [ "site:boards.greenhouse.io";
    "site:jobs.lever.co";
    "site:ashbyhq.com";
    "site:workable.com";
    "site:myworkdayjobs.com";
    "site:smartrecruiters.com";
    "site:jobs.ashbyhq.com" ].

(** The query of [discover_urls] for one role and one site: the role
    between double quotes, a space, the site. *)
Definition search_query (role site : string) : string :=
  String "034" (role ++ String "034" (String " " site)).

(** The queries in the order [discover_urls] creates its tasks: for each
    role, each site. *)
Definition search_queries : list string :=
  flat_map (fun role => map (search_query role) SEARCH_SITES) ROLE_KEYWORDS.

(** What the search request of [serpapi_search] comes to: a failure
    (transport exception, error status, undecodable body), or the
    decoded body, of which the code reads [organic_results] ([None] when
    the key is missing) and of each result its [link] ([None] when
    missing). *)
Inductive search_reply :=
| SearchFailed
| SearchData (organic_results : option (list (option string))).

(** The loop of [serpapi_search] over the results: the links that are
    present and not empty, in order. *)
Fixpoint collect_links (items : list (option string)) : list string :=
  match items with
  | [] => []
  | item :: rest =>
      match item with
      | Some link => if Str.is_empty link then collect_links rest
                     else link :: collect_links rest
      | None => collect_links rest
      end
  end.

(** [serpapi_search(query)] with the environment's [SERPAPI_KEY] and the
    reply the request for that query gets. *)
Definition serpapi_search (key : option string) (reply : search_reply) : list string :=
  if Str.is_empty (default "" key) then []
  else match reply with
       | SearchFailed => []
       | SearchData organic_results => collect_links (default [] organic_results)
       end.

(** The de-duplication loop of [discover_urls]. *)
Fixpoint unique_loop (urls : list string) (seen : gset string) (unique : list string)
    : list string :=
  match urls with
  | [] => unique
  | u :: rest =>
      if decide (u ∈ seen) then unique_loop rest seen unique
      else unique_loop rest ({[u]} ∪ seen) (unique ++ [u])%list
  end.

(** [discover_urls()], [replies] giving the reply to each query. *)
Definition discover_urls (key : option string) (replies : string -> search_reply)
    : list string :=
  let results := map (fun q => serpapi_search key (replies q)) search_queries in
  let urls := concat results in
  unique_loop urls ∅ [].

(** The parser [parse_url] hands a url to. *)
Inductive parser := Greenhouse | Lever | Generic.

Definition parser_for (url : string) : parser :=
  match GH_RE_match url with
  | Some _ => Greenhouse
  | None =>
      match LEVER_RE_match url with
      | Some _ => Lever
      | None => Generic
      end
  end.

(** What the fetches a parser makes for one url come to, by parser. *)
Record pages := {
  page_cards : option (list gh_card);
  page_listing : option (list lever_entry);
  page_anchors : option (list anchor);
  page_nodes : option (list node)
}.

(** [parse_url(client, url)]. *)
Definition parse_url (cls : JobPosting_class) (now : string) (url : string)
    (w : pages) : list JobPosting :=
  match parser_for url with
  | Greenhouse => parse_greenhouse cls now url (page_cards w)
  | Lever => parse_lever cls now url (page_listing w) (page_anchors w)
  | Generic => parse_generic cls now url (page_nodes w)
  end.

(* ===================================================================== *)
(** * The tasks of a scan                                                 *)
(* ===================================================================== *)

(** What one call of [polite_get] meets: the throttle map and the clock
    at the call, and what the awaited [client.get] gives. *)
Record fetch_ctx := {
  ctx_hits : gmap string Z;
  ctx_now : Z;
  ctx_get : get_outcome
}.


(** What a scan meets at one url: the fetch of the url and the fetch of
    the listing API, what the HTML and JSON libraries make of a response
    for each parser ([None] for a body that does not decode to a
    listing), and the exception [resp.request.url.join(href)] raises for
    a link of the page ([None] when the call returns; its string is then
    the [card_joined] or [node_joined] of the element). *)
Record site := {
  site_fetch : fetch_ctx;
  site_api_fetch : fetch_ctx;
  site_cards : Response -> list gh_card;
  site_listing : Response -> option (list lever_entry);
  site_anchors : Response -> list anchor;
  site_nodes : Response -> list node;
  site_join_error : Response -> string -> option exn
}.















(** A listing of board B: a posting with an apply link only, and one
    whose [text] is null. *)
Definition listed_item : lever_item :=
  {| item_text := TextStr "  Sales Operations Lead ";
     item_hostedUrl := None;
     item_applyUrl := Some "https://jobs.lever.co/acme/1/apply";
     item_categories := CategoriesObject (Some "Austin");
     item_posted_iso := None |}.

Definition null_text_item : lever_item :=
  {| item_text := TextNotStr;
     item_hostedUrl := Some "https://jobs.lever.co/acme/2";
     item_applyUrl := None;
     item_categories := CategoriesFalsy;
     item_posted_iso := None |}.

Definition careers_anchor : anchor :=
  {| anchor_text := "Sales Enablement Manager"; anchor_href := "/acme/3" |}.






(* ===================================================================== *)
(** * Facts about strings                                                 *)
(* ===================================================================== *)

Lemma str_app_assoc (a b c : string) : (a ++ b) ++ c = a ++ b ++ c.
Proof. induction a as [|x a IH]; simpl; [reflexivity | now rewrite IH]. Qed.

Lemma str_app_empty_r (a : string) : a ++ "" = a.
Proof. induction a as [|x a IH]; simpl; [reflexivity | now rewrite IH]. Qed.

Lemma lower_app (a b : string) : Str.lower (a ++ b) = Str.lower a ++ Str.lower b.
Proof. induction a as [|x a IH]; simpl; [reflexivity | now rewrite IH]. Qed.

Lemma startswith_app (p r : string) : Str.startswith p (p ++ r) = true.
Proof.
  induction p as [|x p IH]; simpl; [reflexivity |].
  now rewrite Ascii.eqb_refl.
Qed.

Lemma startswith_inv (p s : string) :
  Str.startswith p s = true -> exists r, s = p ++ r.
Proof.
  revert s. induction p as [|x p IH]; intros s H.
  - exists s. reflexivity.
  - destruct s as [|y s]; simpl in H; [discriminate |].
    destruct (Ascii.eqb_spec x y) as [->|]; [| discriminate].
    destruct (IH s H) as [r ->]. exists r. reflexivity.
Qed.

Lemma contains_of_startswith (k s : string) :
  Str.startswith k s = true -> Str.contains k s = true.
Proof.
  destruct s as [|c s]; simpl; intros H; [exact H | now rewrite H].
Qed.

Lemma contains_skip (k a s : string) :
  Str.contains k s = true -> Str.contains k (a ++ s) = true.
Proof.
  intros H. induction a as [|x a IH]; simpl; [exact H |].
  rewrite IH. apply orb_true_r.
Qed.

Lemma contains_intro (k a b : string) : Str.contains k (a ++ k ++ b) = true.
Proof. apply contains_skip, contains_of_startswith, startswith_app. Qed.

Lemma contains_inv (k t : string) :
  Str.contains k t = true -> exists a b, t = a ++ k ++ b.
Proof.
  induction t as [|c t IH]; simpl; intros H.
  - destruct (startswith_inv _ _ H) as [r Hr].
    exists "", r. exact Hr.
  - apply orb_true_iff in H as [H|H].
    + destruct (startswith_inv _ _ H) as [r Hr]. exists "", r. exact Hr.
    + destruct (IH H) as (a & b & ->). exists (String c a), b. reflexivity.
Qed.

(** A substring of the title stays one when text is put around the title. *)
Lemma contains_embed (k pre t post : string) :
  Str.contains k t = true -> Str.contains k (pre ++ t ++ post) = true.
Proof.
  intros H. destruct (contains_inv _ _ H) as (a & b & ->).
  replace (pre ++ (a ++ k ++ b) ++ post) with ((pre ++ a) ++ k ++ (b ++ post)).
  - apply contains_intro.
  - now rewrite !str_app_assoc.
Qed.

(* ===================================================================== *)
(** * Facts about the score                                               *)
(* ===================================================================== *)

Lemma fold_points (found : string -> bool) (step : Z) (terms : list string) (score : Z) :
  fold_left (fun score k => if found k then score + step else score) terms score
  = score + step * hits found terms.
Proof.
  unfold hits. revert score.
  induction terms as [|k terms IH]; intros score; simpl.
  - lia.
  - rewrite IH. destruct (found k); simpl length; lia.
Qed.

Lemma hits_nonneg (found : string -> bool) (terms : list string) : 0 <= hits found terms.
Proof. unfold hits. lia. Qed.

Lemma hits_mono (f g : string -> bool) (terms : list string) :
  (forall k, f k = true -> g k = true) -> hits f terms <= hits g terms.
Proof.
  intros Hfg. unfold hits.
  induction terms as [|k terms IH]; simpl; [lia |].
  destruct (f k) eqn:Hf.
  - rewrite (Hfg k Hf). simpl length. lia.
  - destruct (g k); simpl length; lia.
Qed.

Lemma hits_strict (f g : string -> bool) (terms : list string) (b : string) :
  (forall k, f k = true -> g k = true) ->
  In b terms -> f b = false -> g b = true ->
  hits f terms + 1 <= hits g terms.
Proof.
  intros Hfg Hin Hfb Hgb.
  induction terms as [|k terms IH]; [destruct Hin |].
  pose proof (hits_mono f g terms Hfg) as Hm.
  unfold hits in *. simpl.
  destruct Hin as [->|Hin].
  - rewrite Hfb, Hgb. simpl length. lia.
  - specialize (IH Hin).
    destruct (f k) eqn:Hf.
    + rewrite (Hfg k Hf). simpl length. lia.
    + destruct (g k); simpl length; lia.
Qed.

(** The score before the cap, as a weighted count. *)
Lemma raw_score_count (job : JobPosting) :
  raw_score job
  = 20 * hits (fun k => Str.contains (Str.lower k) (Str.lower (title job))) ROLE_KEYWORDS
    + 5 * hits (fun b => Str.contains b (Str.lower (title job))) BONUS_TERMS
    + (if known_ats (source job) then 5 else 0).
Proof.
  unfold raw_score, keyword_points, bonus_points.
  rewrite !fold_points. destruct (known_ats (source job)); lia.
Qed.

Lemma raw_score_nonneg (job : JobPosting) : 0 <= raw_score job.
Proof.
  rewrite raw_score_count.
  pose proof (hits_nonneg (fun k => Str.contains (Str.lower k) (Str.lower (title job))) ROLE_KEYWORDS).
  pose proof (hits_nonneg (fun b => Str.contains b (Str.lower (title job))) BONUS_TERMS).
  destruct (known_ats (source job)); lia.
Qed.

(** C3: the score of every posting lies in [0, 100]; a sum of 100 or more
    is returned as exactly 100 and a smaller sum is returned unchanged. *)
Theorem heuristic_score_clamped (job : JobPosting) :
  0 <= heuristic_score job <= 100
  /\ (100 <= raw_score job -> heuristic_score job = 100)
  /\ (raw_score job <= 100 -> heuristic_score job = raw_score job).
Proof.
  pose proof (raw_score_nonneg job). unfold heuristic_score. lia.
Qed.

(** C10: the score of every posting is 5 * k for an integer k between 0
    and 20, that is one of 0, 5, 10, ..., 100. *)
Theorem heuristic_score_multiple_of_5 (job : JobPosting) :
  exists k : Z, 0 <= k <= 20 /\ heuristic_score job = 5 * k.
Proof.
  pose proof (raw_score_count job) as Hc.
  pose proof (hits_nonneg (fun k => Str.contains (Str.lower k) (Str.lower (title job))) ROLE_KEYWORDS).
  pose proof (hits_nonneg (fun b => Str.contains b (Str.lower (title job))) BONUS_TERMS).
  set (kw := hits _ ROLE_KEYWORDS) in *. set (bo := hits _ BONUS_TERMS) in *.
  unfold heuristic_score.
  exists (Z.min (4 * kw + bo + (if known_ats (source job) then 1 else 0)) 20).
  destruct (known_ats (source job)); lia.
Qed.

Lemma raw_score_embed (job : JobPosting) (pre post : string) :
  raw_score job <= raw_score (with_title job (pre ++ title job ++ post)).
Proof.
  rewrite !raw_score_count. simpl. rewrite !lower_app.
  pose proof (hits_mono
    (fun k => Str.contains (Str.lower k) (Str.lower (title job)))
    (fun k => Str.contains (Str.lower k)
                (Str.lower pre ++ Str.lower (title job) ++ Str.lower post))
    ROLE_KEYWORDS (fun k => contains_embed _ _ _ _)).
  pose proof (hits_mono
    (fun b => Str.contains b (Str.lower (title job)))
    (fun b => Str.contains b
                (Str.lower pre ++ Str.lower (title job) ++ Str.lower post))
    BONUS_TERMS (fun b => contains_embed _ _ _ _)).
  destruct (known_ats (source job)); lia.
Qed.

Lemma raw_score_new_bonus (job : JobPosting) (pre post bonus : string) :
  In bonus BONUS_TERMS ->
  Str.contains bonus (Str.lower (title job)) = false ->
  Str.contains bonus (Str.lower (pre ++ title job ++ post)) = true ->
  raw_score job + 5 <= raw_score (with_title job (pre ++ title job ++ post)).
Proof.
  intros Hin Hold Hnew.
  rewrite !raw_score_count. simpl. rewrite !lower_app in *.
  pose proof (hits_mono
    (fun k => Str.contains (Str.lower k) (Str.lower (title job)))
    (fun k => Str.contains (Str.lower k)
                (Str.lower pre ++ Str.lower (title job) ++ Str.lower post))
    ROLE_KEYWORDS (fun k => contains_embed _ _ _ _)).
  pose proof (hits_strict
    (fun b => Str.contains b (Str.lower (title job)))
    (fun b => Str.contains b
                (Str.lower pre ++ Str.lower (title job) ++ Str.lower post))
    BONUS_TERMS bonus (fun b => contains_embed _ _ _ _) Hin Hold Hnew).
  destruct (known_ats (source job)); lia.
Qed.

(** C4, as amended: putting text before or after the title never lowers
    the score; when that text brings an occurrence of a bonus term that
    the lower-cased title did not contain, the score is strictly greater
    unless it was already at the cap of 100, where it stays 100. *)
Theorem bonus_term_raises_score (job : JobPosting) (pre post : string) :
  let job' := with_title job (pre ++ title job ++ post) in
  heuristic_score job <= heuristic_score job'
  /\ (forall bonus : string,
        In bonus BONUS_TERMS ->
        Str.contains bonus (Str.lower (title job)) = false ->
        Str.contains bonus (Str.lower (title job')) = true ->
        heuristic_score job < 100 ->
        heuristic_score job < heuristic_score job')
  /\ (heuristic_score job = 100 -> heuristic_score job' = 100).
Proof.
  cbv zeta. pose proof (raw_score_embed job pre post) as Hle.
  unfold heuristic_score. repeat split; [lia | | lia].
  intros bonus Hin Hold Hnew Hlt.
  pose proof (raw_score_new_bonus job pre post bonus Hin Hold Hnew). lia.
Qed.

(* ===================================================================== *)
(** * Facts about the deduplicator                                        *)
(* ===================================================================== *)

Lemma dedupe_loop_acc (posts : list JobPosting) seen (unique : list JobPosting) :
  dedupe_loop posts seen unique = (unique ++ dedupe_loop posts seen [])%list.
Proof.
  revert seen unique. induction posts as [|p rest IH]; intros seen unique; simpl.
  - now rewrite app_nil_r.
  - case_decide; [apply IH |].
    rewrite IH, (IH _ [p]). now rewrite <- app_assoc.
Qed.

(** Per key: the postings kept are the first one of the input that
    carries the key, and none when the key was seen before. *)
Lemma dedupe_loop_filter (k : string * string * string) (posts : list JobPosting) seen :
  filter (fun r => dedupe_key r = k) (dedupe_loop posts seen [])
  = if decide (k ∈ seen) then []
    else take 1 (filter (fun r => dedupe_key r = k) posts).
Proof.
  revert seen. induction posts as [|p rest IH]; intros seen; simpl.
  - now case_decide.
  - destruct (decide (dedupe_key p ∈ seen)) as [Hin|Hout].
    + rewrite IH. destruct (decide (k ∈ seen)) as [|Hk]; [reflexivity |].
      rewrite filter_cons_False; [reflexivity | congruence].
    + rewrite dedupe_loop_acc, filter_app, IH.
      destruct (decide (dedupe_key p = k)) as [Heq|Hne].
      * rewrite !filter_cons_True by assumption. rewrite filter_nil.
        rewrite decide_True by (apply elem_of_union_l, elem_of_singleton; congruence).
        rewrite decide_False by congruence. reflexivity.
      * rewrite !filter_cons_False by assumption. rewrite filter_nil.
        destruct (decide (k ∈ seen)) as [Hk|Hk].
        -- rewrite decide_True by (apply elem_of_union_r, Hk). reflexivity.
        -- rewrite decide_False; [reflexivity |].
           intros [Hs|Hs]%elem_of_union; [| contradiction].
           apply elem_of_singleton in Hs. congruence.
Qed.

Lemma dedupe_loop_sublist (posts : list JobPosting) seen :
  dedupe_loop posts seen [] `sublist_of` posts.
Proof.
  revert seen. induction posts as [|p rest IH]; intros seen; simpl.
  - constructor.
  - case_decide.
    + apply sublist_cons, IH.
    + rewrite dedupe_loop_acc. simpl. apply sublist_skip, IH.
Qed.

(** For postings that carry a company, the key is the lower-cased
    (title, company, location). *)
Lemma dedupe_key_with_company (p : JobPosting) :
  company p <> "" ->
  dedupe_key p = (Str.lower (title p), Str.lower (company p), Str.lower (location p)).
Proof.
  intros H. unfold dedupe_key, Str.or_else.
  destruct (company p); [congruence | reflexivity].
Qed.

(** Per key, on any list: two postings of the input whose keys agree,
    the key being the lower-cased (title, company or else the company
    derived from the url, location), leave exactly one record with that
    key in the output, the first posting of the input that carries it;
    the output is a subsequence of the input, so input order is kept. *)
Theorem dedupe_keeps_first_per_key (posts : list JobPosting) (p q : JobPosting) :
  p ∈ posts -> q ∈ posts -> dedupe_key p = dedupe_key q ->
  (exists r,
      filter (fun x => dedupe_key x = dedupe_key p) (dedupe posts) = [r]
      /\ head (filter (fun x => dedupe_key x = dedupe_key p) posts) = Some r
      /\ dedupe_key r = dedupe_key q)
  /\ (p ∈ dedupe posts -> q ∈ dedupe posts -> p = q)
  /\ dedupe posts `sublist_of` posts.
Proof.
  intros Hp Hq Hpq.
  assert (Hone : exists r,
      filter (fun x => dedupe_key x = dedupe_key p) (dedupe posts) = [r]
      /\ head (filter (fun x => dedupe_key x = dedupe_key p) posts) = Some r
      /\ dedupe_key r = dedupe_key q).
  { unfold dedupe. rewrite dedupe_loop_filter.
    rewrite decide_False by apply not_elem_of_empty.
    assert (Hin : p ∈ filter (fun x => dedupe_key x = dedupe_key p) posts)
      by (apply list_elem_of_filter; split; [reflexivity | exact Hp]).
    destruct (filter (fun x => dedupe_key x = dedupe_key p) posts) as [|r l] eqn:Hf.
    - inversion Hin.
    - exists r. repeat split.
      assert (Hr : r ∈ filter (fun x => dedupe_key x = dedupe_key p) posts)
        by (rewrite Hf; left).
      apply list_elem_of_filter in Hr as [Hr _]. congruence. }
  split; [exact Hone |]. split; [| apply dedupe_loop_sublist].
  destruct Hone as (r & Hr & _ & _). intros Hpo Hqo.
  assert (Hp1 : p ∈ filter (fun x => dedupe_key x = dedupe_key p) (dedupe posts))
    by (apply list_elem_of_filter; split; [reflexivity | exact Hpo]).
  assert (Hq1 : q ∈ filter (fun x => dedupe_key x = dedupe_key p) (dedupe posts))
    by (apply list_elem_of_filter; split; [symmetry; exact Hpq | exact Hqo]).
  rewrite Hr in Hp1, Hq1.
  apply list_elem_of_singleton in Hp1, Hq1. congruence.
Qed.

(* ===================================================================== *)
(** * Facts about the store                                               *)
(* ===================================================================== *)

Lemma url_present_app (u : string) (t1 t2 : list Row) :
  url_present u (t1 ++ t2) = (url_present u t1 || url_present u t2)%bool.
Proof. unfold url_present. apply existsb_app. Qed.

Lemma find_url_app (u : string) (t1 t2 : list Row) :
  find_url u (t1 ++ t2)
  = match find_url u t1 with Some r => Some r | None => find_url u t2 end.
Proof.
  unfold find_url. induction t1 as [|r t1 IH]; simpl; [reflexivity |].
  destruct (String.eqb (row_url r) u); [reflexivity | exact IH].
Qed.

Lemma find_url_present (u : string) (t : list Row) :
  url_present u t = true -> exists r, find_url u t = Some r.
Proof.
  unfold url_present, find_url. induction t as [|r t IH]; simpl; [discriminate |].
  destruct (String.eqb (row_url r) u); [eauto | exact IH].
Qed.

(** A row whose url is already stored is invisible to a lookup by url. *)
Lemma find_url_shadowed (u : string) (t l : list Row) (r : Row) :
  url_present (row_url r) t = true ->
  find_url u (t ++ r :: l) = find_url u (t ++ l).
Proof.
  intros Hp. rewrite !find_url_app.
  destruct (find_url u t) as [r'|] eqn:Hf; [reflexivity |].
  unfold find_url at 1. simpl.
  destruct (String.eqb_spec (row_url r) u) as [<-|]; [| reflexivity].
  destruct (find_url_present _ _ Hp) as [r' Hr']. congruence.
Qed.

(** What the loop of [upsert_jobs] does to the table and the counter. *)
Lemma upsert_loop_spec (posts : list JobPosting) (table : list Row) (n : Z) :
  exists added : list Row,
    upsert_loop posts table n = ((table ++ added)%list, n + Z.of_nat (length added))
    /\ NoDup (map row_url added)
    /\ Forall (fun r => url_present (row_url r) table = false) added
    /\ added `sublist_of` map row_of posts
    /\ Forall (fun p => url_present (url p) (table ++ added) = true) posts
    /\ (forall u, find_url u (table ++ added) = find_url u (table ++ map row_of posts)).
Proof.
  revert table n. induction posts as [|p rest IH]; intros table n.
  - exists []. simpl. rewrite app_nil_r, Z.add_0_r.
    repeat split; constructor.
  - simpl. unfold insert_or_ignore.
    destruct (url_present (row_url (row_of p)) table) eqn:Hp.
    + destruct (IH table n) as (added & Hrun & Hnd & Hnew & Hsub & Hall & Hfind).
      exists added. simpl. rewrite Hrun.
      repeat split; try assumption.
      * now apply sublist_cons.
      * constructor; [| exact Hall].
        rewrite url_present_app. simpl in Hp. now rewrite Hp.
      * intros u. rewrite Hfind. symmetry. now apply find_url_shadowed.
    + destruct (IH (table ++ [row_of p])%list (n + 1))
        as (added & Hrun & Hnd & Hnew & Hsub & Hall & Hfind).
      exists (row_of p :: added). simpl.
      replace (if 1 =? 0 then n else n + 1) with (n + 1) by reflexivity.
      rewrite Hrun, <- app_assoc. simpl.
      repeat split.
      * f_equal. lia.
      * constructor; [| exact Hnd].
        intros Hin. apply list_elem_of_In, in_map_iff in Hin as (r & Hr & Hrin).
        apply list_elem_of_In in Hrin.
        rewrite Forall_forall in Hnew. specialize (Hnew r Hrin).
        rewrite url_present_app in Hnew. apply orb_false_iff in Hnew as [_ Hnew].
        unfold url_present in Hnew. simpl in Hnew. rewrite orb_false_r in Hnew.
        simpl in Hr. rewrite Hr, String.eqb_refl in Hnew. discriminate.
      * constructor; [exact Hp |].
        eapply Forall_impl; [exact Hnew |]. intros r Hr. cbv beta in Hr.
        rewrite url_present_app in Hr. now apply orb_false_iff in Hr as [Hr _].
      * now apply sublist_skip.
      * constructor.
        -- rewrite url_present_app.
           replace (url_present (url p) (row_of p :: added)) with true;
             [apply orb_true_r |].
           unfold url_present. simpl. now rewrite String.eqb_refl.
        -- rewrite <- app_assoc in Hall. exact Hall.
      * intros u. rewrite <- !app_assoc in Hfind. exact (Hfind u).
Qed.

(** A run over postings whose urls are all stored changes nothing. *)
Lemma upsert_loop_present (posts : list JobPosting) (table : list Row) (n : Z) :
  Forall (fun p => url_present (url p) table = true) posts ->
  upsert_loop posts table n = (table, n).
Proof.
  induction 1 as [|p rest Hp _ IH]; simpl; [reflexivity |].
  unfold insert_or_ignore. simpl. now rewrite Hp.
Qed.

(** C6: running [upsert_jobs] twice with the same list inserts each url
    at most once.  The second run returns 0 and leaves the table as the
    first run left it; the first run keeps every earlier row in place and
    appends rows with pairwise distinct urls, none of them stored
    before, counting exactly those; a lookup by url finds the first row
    ever offered for it; and inserting a stored url changes nothing and
    reports no row. *)
Theorem upsert_jobs_idempotent (posts : list JobPosting) (table : list Row) :
  let first := upsert_jobs posts table in
  let second := upsert_jobs posts first.1 in
  second.2 = 0
  /\ second.1 = first.1
  /\ (exists added : list Row,
        first.1 = (table ++ added)%list
        /\ first.2 = Z.of_nat (length added)
        /\ NoDup (map row_url added)
        /\ Forall (fun r => url_present (row_url r) table = false) added)
  /\ (forall u, find_url u first.1 = find_url u (table ++ map row_of posts))
  /\ (forall (r : Row) (t : list Row),
        url_present (row_url r) t = true -> insert_or_ignore t r = (t, 0)).
Proof.
  cbv zeta. unfold upsert_jobs.
  destruct (upsert_loop_spec posts table 0)
    as (added & Hrun & Hnd & Hnew & _ & Hall & Hfind).
  rewrite Hrun. simpl.
  rewrite (upsert_loop_present posts (table ++ added) 0 Hall). simpl.
  repeat split.
  - exists added. repeat split; assumption.
  - exact Hfind.
  - intros r t Hp. unfold insert_or_ignore. now rewrite Hp.
Qed.

(* ===================================================================== *)
(** * Facts about the orchestrator                                        *)
(* ===================================================================== *)

Lemma filter_and_score_elem (flat : list JobPosting) (q : JobPosting) :
  q ∈ filter_and_score flat ->
  exists p, p ∈ flat /\ matches_role (title p) = true /\ q = normalize_and_score p.
Proof.
  induction flat as [|p rest IH]; simpl; intros Hq.
  - inversion Hq.
  - destruct (matches_role (title p)) eqn:Hm.
    + apply elem_of_cons in Hq as [->|Hq].
      * exists p. repeat split; [left | exact Hm].
      * destruct (IH Hq) as (p' & Hin & Hm' & ->).
        exists p'. repeat split; [now right | exact Hm'].
    + destruct (IH Hq) as (p' & Hin & Hm' & ->).
      exists p'. repeat split; [now right | exact Hm'].
Qed.

Lemma run_scan_persisted (db : option (list Row)) (flat : list JobPosting) :
  scan_persisted (run_scan db flat) = dedupe (filter_and_score flat).
Proof.
  unfold run_scan. now destruct (upsert_jobs _ _).
Qed.

Lemma run_scan_table (db : option (list Row)) (flat : list JobPosting) :
  scan_table (run_scan db flat)
  = (upsert_jobs (dedupe (filter_and_score flat)) (ensure_db db)).1.
Proof.
  unfold run_scan. now destruct (upsert_jobs _ _).
Qed.

(** C5: every posting handed to the persistence step stems from a parsed
    posting whose title contains a role keyword, so a posting whose
    title contains none is filtered out before dedupe and insert; and
    every row of the table after the run was there before it or is the
    row of a posting handed to the persistence step. *)
Theorem unmatched_title_never_persisted (db : option (list Row)) (flat : list JobPosting) :
  let r := run_scan db flat in
  Forall (fun q => matches_role (title q) = true
                   /\ exists p, p ∈ flat /\ q = normalize_and_score p)
         (scan_persisted r)
  /\ (forall p q, matches_role (title p) = false ->
                  q ∈ filter_and_score flat \/ q ∈ scan_persisted r ->
                  title q <> title p)
  /\ Forall (fun row => row ∈ ensure_db db
                        \/ exists q, q ∈ scan_persisted r /\ row = row_of q)
            (scan_table r).
Proof.
  cbv zeta. rewrite run_scan_persisted, run_scan_table.
  assert (Hkept : forall q, q ∈ dedupe (filter_and_score flat) ->
                            q ∈ filter_and_score flat).
  { intros q Hq. eapply elem_of_sublist; [exact Hq | apply dedupe_loop_sublist]. }
  repeat split.
  - apply Forall_forall. intros q Hq.
    destruct (filter_and_score_elem _ _ (Hkept q Hq)) as (p & Hin & Hm & ->).
    split; [exact Hm | eauto].
  - intros p q Hp [Hq|Hq]; [| apply Hkept in Hq];
      destruct (filter_and_score_elem _ _ Hq) as (p' & _ & Hm & ->);
      simpl; intros Heq; rewrite Heq in Hm; congruence.
  - unfold upsert_jobs.
    destruct (upsert_loop_spec (dedupe (filter_and_score flat)) (ensure_db db) 0)
      as (added & Hrun & _ & _ & Hsub & _ & _).
    rewrite Hrun. simpl. apply Forall_app. split.
    + apply Forall_forall. intros row Hrow. now left.
    + apply Forall_forall. intros row Hrow. right.
      pose proof (elem_of_sublist _ _ _ Hrow Hsub) as Hin.
      apply list_elem_of_In, in_map_iff in Hin as (q & Hq & Hqin).
      exists q. split; [now apply list_elem_of_In | congruence].
Qed.

(* ===================================================================== *)
(** * Facts about the data model and the fetcher                          *)
(* ===================================================================== *)

(** C1: the code stamps every posting constructed without a capture time
    with the clock reading of the moment the class was defined, whatever
    the clock reads when the posting is constructed; two postings
    constructed at different times carry the same stamp. *)
Theorem captured_at_is_definition_time
    (defined now1 now2 : string)
    (t1 c1 l1 u1 s1 t2 c2 l2 u2 s2 : string) (at1 at2 : option string) :
  let cls := define_JobPosting defined in
  captured_at (JobPosting_init cls now1 t1 c1 l1 u1 s1 at1 None None) = defined
  /\ captured_at (JobPosting_init cls now2 t2 c2 l2 u2 s2 at2 None None) = defined.
Proof. split; reflexivity. Qed.

(** Once the network location of the url is determined, the fetch returns:
    the response when one arrived with status 200, the sentinel for any
    other status and for any exception of the transport. *)
Lemma polite_get_two_outcomes (hits : gmap string Z) (now : Z) (get : get_outcome)
    (u host : string) :
  urlparse_netloc u = Some host ->
  fetch_outcome (polite_get hits now get u)
  = match get with
    | GetResponse _ r => if status_code r =? 200 then Returns (Some r) else Returns None
    | GetRaised _ => Returns None
    end.
Proof.
  intros Hhost. unfold polite_get. rewrite Hhost. now destruct get.
Qed.

(** C9: on a url whose network location opens a bracket and never closes
    it, [polite_get] leaves with the [ValueError] of [urlparse], whatever
    the transport would have answered, and does not touch the throttle
    map. *)
Theorem polite_get_propagates_ValueError (hits : gmap string Z) (now : Z)
    (get : get_outcome) :
  fetch_outcome (polite_get hits now get "http://[::1/jobs")
    = Raises ValueError
  /\ fetch_hits (polite_get hits now get "http://[::1/jobs") = hits.
Proof. split; reflexivity. Qed.

(* ===================================================================== *)
(** * Facts about the parsers                                             *)
(* ===================================================================== *)

Lemma lever_loop_acc (cls : JobPosting_class) (now company u : string)
    (data : list lever_entry) (postings : list JobPosting) :
  lever_loop cls now company u data postings
  = ((postings ++ (lever_loop cls now company u data []).1)%list,
     (lever_loop cls now company u data []).2).
Proof.
  revert postings. induction data as [|entry rest IH]; intros postings; simpl.
  - now rewrite app_nil_r.
  - destruct (lever_posting cls now company u entry) as [p|]; simpl.
    + rewrite (IH (postings ++ [p])%list), (IH [p]). simpl.
      now rewrite <- app_assoc.
    + now rewrite app_nil_r.
Qed.

(** The loop over a listing in which no turn raises appends the posting
    of every entry and returns. *)
Lemma lever_loop_returns (cls : JobPosting_class) (now company u : string)
    (data : list lever_entry) :
  Forall (fun e => lever_posting cls now company u e <> None) data ->
  lever_loop cls now company u data []
  = (omap (lever_posting cls now company u) data, true)
  /\ map Some (omap (lever_posting cls now company u) data)
     = map (lever_posting cls now company u) data.
Proof.
  induction 1 as [|entry rest He _ IH]; [now split |].
  destruct IH as [IH1 IH2]. cbn [lever_loop omap list_omap map].
  destruct (lever_posting cls now company u entry) as [p|] eqn:Hp; [| congruence].
  rewrite lever_loop_acc, IH1. cbn [fst snd app map].
  split; [reflexivity | now rewrite IH2].
Qed.

(** The loop over a listing whose first raising turn comes after the
    entries [good] keeps their postings and does not return. *)
Lemma lever_loop_abandoned (cls : JobPosting_class) (now company u : string)
    (good : list lever_entry) (bad : lever_entry) (rest : list lever_entry) :
  Forall (fun e => lever_posting cls now company u e <> None) good ->
  lever_posting cls now company u bad = None ->
  lever_loop cls now company u (good ++ bad :: rest) []
  = (omap (lever_posting cls now company u) good, false).
Proof.
  intros Hgood Hbad. induction Hgood as [|entry good He _ IH]; simpl.
  - now rewrite Hbad.
  - destruct (lever_posting cls now company u entry) as [p|] eqn:Hp; [| congruence].
    now rewrite lever_loop_acc, IH.
Qed.

Lemma lever_loop_Forall (P : JobPosting -> Prop) (cls : JobPosting_class)
    (now company u : string) (data : list lever_entry) (postings : list JobPosting) :
  (forall e p, lever_posting cls now company u e = Some p -> P p) ->
  Forall P postings ->
  Forall P (lever_loop cls now company u data postings).1.
Proof.
  intros HP. revert postings.
  induction data as [|entry rest IH]; intros postings Hacc; simpl; [exact Hacc |].
  destruct (lever_posting cls now company u entry) as [p|] eqn:Hp; [| exact Hacc].
  apply IH, Forall_app. split; [exact Hacc |].
  constructor; [exact (HP _ _ Hp) | constructor].
Qed.

(** C7, as amended: a record that lacks a field other than the ones the
    parser needs gets the empty or default value and is kept.  The
    board-A parser skips a candidate exactly when its title or its link
    is absent or empty, either one sufficing; company slug and location
    default to the empty string.  On the listing path of the board-B
    parser a turn of the loop raises exactly when the entry is not an
    object, its [text] is present and not a string, or its [categories]
    is truthy and not an object; every other entry gives a posting whose
    title is the stripped [text] or the empty string, whose url is the
    hosted link, or else the apply link, or else the url that was asked
    for, whose location defaults to the empty string and whose
    [posted_at] is absent without a usable creation time.  A listing in
    which no turn raises gives one posting per entry, in order; at the
    first turn that raises the loop is abandoned, and the result is the
    postings appended so far followed by those of the HTML fallback, or
    the empty list when the page cannot be fetched.  The HTML fallback
    skips an anchor exactly when its text is empty, and the generic
    parser skips an element exactly when its text is empty or matches no
    role keyword, giving a kept element without a link the page url. *)
Theorem parsers_default_or_skip (cls : JobPosting_class) (now : string) :
  (forall slug job,
      greenhouse_posting cls now slug job = None
      <-> (card_href job = None \/ card_href job = Some "" \/ card_text job = ""))
  /\ (forall slug job p,
        greenhouse_posting cls now slug job = Some p ->
        title p = card_text job
        /\ company p = default "" slug
        /\ location p = default "" (card_location job))
  /\ (forall slug u entry,
        lever_posting cls now slug u entry = None
        <-> (entry = EntryNotObject
             \/ exists item, entry = EntryObject item
                  /\ (item_text item = TextNotStr
                      \/ item_categories item = CategoriesNotObject)))
  /\ (forall slug u item p,
        lever_posting cls now slug u (EntryObject item) = Some p ->
        company p = slug /\ source p = "lever"
        /\ title p = match item_text item with
                     | TextStr s => Str.strip s
                     | _ => ""
                     end
        /\ url p = match item_hostedUrl item, item_applyUrl item with
                   | Some (String _ _ as hosted), _ => hosted
                   | _, Some (String _ _ as apply) => apply
                   | _, _ => u
                   end
        /\ location p = match item_categories item with
                        | CategoriesObject (Some l) => l
                        | _ => ""
                        end
        /\ posted_at p = item_posted_iso item)
  /\ (forall u slug data page,
        LEVER_RE_match u = Some slug ->
        Forall (fun e => lever_posting cls now slug u e <> None) data ->
        map Some (parse_lever cls now u (Some data) page)
        = map (lever_posting cls now slug u) data
        /\ length (parse_lever cls now u (Some data) page) = length data)
  /\ (forall u slug good bad rest page,
        LEVER_RE_match u = Some slug ->
        Forall (fun e => lever_posting cls now slug u e <> None) good ->
        lever_posting cls now slug u bad = None ->
        parse_lever cls now u (Some (good ++ bad :: rest)%list) page
        = match page with
          | None => []
          | Some anchors =>
              (omap (lever_posting cls now slug u) good
               ++ omap (lever_html_posting cls now slug) anchors)%list
          end)
  /\ (forall slug a, lever_html_posting cls now slug a = None <-> anchor_text a = "")
  /\ (forall u n,
        generic_posting cls now u n = None
        <-> (node_text n = "" \/ matches_role (node_text n) = false))
  /\ (forall u n p,
        generic_posting cls now u n = Some p -> node_href n = None -> url p = u).
Proof.
  split; [| split; [| split; [| split; [| split; [| split; [| split; [| split]]]]]]].
  - intros slug job. unfold greenhouse_posting.
    destruct (card_href job) as [href|]; [| tauto].
    destruct href as [|c href]; simpl; [split; [tauto | reflexivity] |].
    destruct (card_text job) as [|d t]; simpl; [tauto |].
    split; [discriminate | intros [H|[H|H]]; discriminate].
  - intros slug job p. unfold greenhouse_posting.
    destruct (card_href job) as [href|]; [| discriminate].
    destruct (_ || _)%bool; [discriminate |].
    intros [= <-]. repeat split.
  - intros slug u entry. unfold lever_posting.
    destruct entry as [item|]; [| split; [now left | reflexivity]].
    split.
    + intros H. right. exists item. split; [reflexivity |].
      destruct (item_text item); [| | now left];
        (destruct (item_categories item); [discriminate | discriminate | now right]).
    + intros [H | (item' & [= <-] & [H|H])]; [discriminate | |]; rewrite H;
        [reflexivity |].
      destruct (item_text item); reflexivity.
  - intros slug u item p. unfold lever_posting.
    assert (Hurl : Str.or_else (default "" (item_hostedUrl item))
                     (Str.or_else (default "" (item_applyUrl item)) u)
                   = match item_hostedUrl item, item_applyUrl item with
                     | Some (String _ _ as hosted), _ => hosted
                     | _, Some (String _ _ as apply) => apply
                     | _, _ => u
                     end).
    { destruct (item_hostedUrl item) as [[|c h]|];
        destruct (item_applyUrl item) as [[|d a]|]; reflexivity. }
    destruct (item_text item) eqn:Ht; try discriminate;
      destruct (item_categories item) as [|[l|]|] eqn:Hc; try discriminate;
      intros [= <-]; simpl;
      (split; [reflexivity | split; [reflexivity | split; [reflexivity |
         split; [exact Hurl | split; [| reflexivity]]]]]);
      try reflexivity; unfold Str.or_else; destruct l; reflexivity.
  - intros u slug data page Hm Hgood. unfold parse_lever, lever_listing.
    rewrite Hm.
    destruct (lever_loop_returns cls now slug u data Hgood) as [-> Hmap].
    split; [exact Hmap |].
    rewrite <- (length_map Some), Hmap. apply length_map.
  - intros u slug good bad rest page Hm Hgood Hbad. unfold parse_lever, lever_listing.
    rewrite Hm, (lever_loop_abandoned cls now slug u good bad rest Hgood Hbad).
    reflexivity.
  - intros slug a. unfold lever_html_posting.
    destruct (anchor_text a); simpl; split; congruence.
  - intros u n. unfold generic_posting.
    destruct (node_text n) as [|c t] eqn:Ht; simpl; [tauto |].
    destruct (matches_role (String c t)); split;
      [discriminate | intros [H|H]; discriminate | tauto | reflexivity].
  - intros u n p. unfold generic_posting.
    destruct (Str.is_empty (node_text n)); [discriminate |].
    destruct (matches_role (node_text n)); [| discriminate].
    intros [= <-] ->. reflexivity.
Qed.

(* ===================================================================== *)
(** * Facts about the url patterns                                        *)
(* ===================================================================== *)

Lemma lower_app_inv (x a b : string) :
  Str.lower x = a ++ b ->
  exists xa xb, x = xa ++ xb /\ Str.lower xa = a /\ Str.lower xb = b.
Proof.
  revert x. induction a as [|c a IH]; intros x H.
  - exists "", x. repeat split. exact H.
  - destruct x as [|d x]; simpl in H; [discriminate |].
    injection H as Hc Hx. destruct (IH x Hx) as (xa & xb & -> & Ha & Hb).
    exists (String d xa), xb. simpl. repeat split; [| exact Hb].
    now rewrite Hc, Ha.
Qed.

Lemma lower_char_colon (c : ascii) : Str.lower_char c = ":"%char -> c = ":"%char.
Proof.
  destruct c as [[] [] [] [] [] [] [] []]; vm_compute; intros H;
    first [reflexivity | discriminate H].
Qed.

Lemma lower_char_slash (c : ascii) : Str.lower_char c = "/"%char -> c = "/"%char.
Proof.
  destruct c as [[] [] [] [] [] [] [] []]; vm_compute; intros H;
    first [reflexivity | discriminate H].
Qed.

Lemma lower_colon_slashes (x : string) : Str.lower x = "://" -> x = "://".
Proof.
  destruct x as [|c1 [|c2 [|c3 [|c4 x]]]]; simpl; intros H; try discriminate H.
  injection H as H1 H2 H3.
  now rewrite (lower_char_colon _ H1), (lower_char_slash _ H2), (lower_char_slash _ H3).
Qed.

Lemma lower_slash (x : string) : Str.lower x = "/" -> x = "/".
Proof.
  destruct x as [|c1 [|c2 x]]; simpl; intros H; try discriminate H.
  injection H as H1. now rewrite (lower_char_slash _ H1).
Qed.

Lemma match_literal_ci_inv (lit s r : string) :
  Str.match_literal_ci lit s = Some r -> exists x, s = x ++ r /\ Str.lower x = lit.
Proof.
  revert s. induction lit as [|a lit IH]; intros s H.
  - simpl in H. injection H as ->. exists "". split; reflexivity.
  - destruct s as [|b s]; simpl in H; [discriminate |].
    destruct (Ascii.eqb_spec a (Str.lower_char b)) as [->|]; [| discriminate].
    destruct (IH s H) as (x & -> & <-). exists (String b x). split; reflexivity.
Qed.

Lemma match_literal_ci_of_lower (x lit r : string) :
  Str.lower x = lit -> Str.match_literal_ci lit (x ++ r) = Some r.
Proof.
  intros <-. induction x as [|b x IH]; simpl; [reflexivity |].
  now rewrite Ascii.eqb_refl.
Qed.

Lemma take_while_split (f : ascii -> bool) (s : string) :
  exists rest,
    s = Str.take_while f s ++ rest
    /\ Str.forallb f (Str.take_while f s) = true
    /\ match rest with EmptyString => True | String c _ => f c = false end.
Proof.
  induction s as [|c s (rest & Hs & Hall & Hrest)]; simpl.
  - exists "". repeat split.
  - destruct (f c) eqn:Hc.
    + exists rest. simpl. rewrite Hc, Hall. repeat split; [| exact Hrest].
      now rewrite <- Hs.
    + exists (String c s). repeat split. exact Hc.
Qed.

Lemma take_while_app (f : ascii -> bool) (a rest : string) :
  Str.forallb f a = true ->
  match rest with EmptyString => True | String c _ => f c = false end ->
  Str.take_while f (a ++ rest) = a.
Proof.
  intros Hall Hrest. induction a as [|c a IH]; simpl in *.
  - destruct rest as [|d rest]; simpl; [reflexivity | now rewrite Hrest].
  - apply andb_true_iff in Hall as [Hc Hall]. now rewrite Hc, IH.
Qed.

Lemma no_s_before_colon (r : string) : Str.match_literal_ci "s" ("://" ++ r) = None.
Proof. reflexivity. Qed.

Lemma match_board_unfold (host_path u : string) :
  match_board host_path u
  = match Str.match_literal_ci "http" u with
    | None => None
    | Some r1 =>
        match Str.match_literal_ci host_path
                (default r1 (Str.match_literal_ci "s" r1)) with
        | None => None
        | Some r3 =>
            if Str.is_empty (Str.take_while slug_char r3) then None
            else Some (Str.take_while slug_char r3)
        end
    end.
Proof.
  unfold match_board. destruct (Str.match_literal_ci "http" u) as [r1|]; [| reflexivity].
  cbn [mbind option_bind].
  destruct (Str.match_literal_ci host_path _); reflexivity.
Qed.

(** The matcher accepts exactly the urls of the board, with their slug. *)
Lemma match_board_board_url (host slug u : string) :
  match_board ("://" ++ host ++ "/") u = Some slug <-> board_url host slug u.
Proof.
  rewrite match_board_unfold. split.
  - intros H.
    destruct (Str.match_literal_ci "http" u) as [r1|] eqn:H1; [| discriminate H].
    destruct (match_literal_ci_inv _ _ _ H1) as (x1 & -> & Hx1).
    assert (Hscheme : exists xs, r1 = xs ++ default r1 (Str.match_literal_ci "s" r1)
                                 /\ (Str.lower xs = "" \/ Str.lower xs = "s")).
    { destruct (Str.match_literal_ci "s" r1) as [rs|] eqn:Hs.
      - destruct (match_literal_ci_inv _ _ _ Hs) as (xs & -> & Hxs). eauto.
      - exists "". split; [reflexivity | now left]. }
    revert Hscheme H. generalize (default r1 (Str.match_literal_ci "s" r1)).
    intros r2 (xs & -> & Hxs) H.
    destruct (Str.match_literal_ci ("://" ++ host ++ "/") r2) as [r3|] eqn:H3;
      [| discriminate H].
    destruct (Str.is_empty (Str.take_while slug_char r3)) eqn:Hne; [discriminate H |].
    injection H as <-.
    destruct (match_literal_ci_inv _ _ _ H3) as (x3 & -> & Hx3).
    apply lower_app_inv in Hx3 as (xa & xb & -> & Ha & Hb).
    apply lower_app_inv in Hb as (h & xc & -> & Hh & Hc).
    apply lower_colon_slashes in Ha as ->. apply lower_slash in Hc as ->.
    destruct (take_while_split slug_char r3) as (rest & Hr3 & Hall & Hrest).
    exists (x1 ++ xs), h, rest. repeat split; try assumption.
    + rewrite Hr3 at 1. now rewrite !str_app_assoc.
    + rewrite lower_app, Hx1. destruct Hxs as [->| ->]; [now left | now right].
  - intros (scheme & h & rest & -> & Hs & Hh & Hne & Hall & Hrest).
    assert (Hsplit : exists x1 xs, scheme = x1 ++ xs /\ Str.lower x1 = "http"
                                   /\ (xs = "" \/ Str.lower xs = "s")).
    { destruct Hs as [Hs|Hs].
      - exists scheme, "". rewrite str_app_empty_r. repeat split; [exact Hs | now left].
      - change "https" with ("http" ++ "s") in Hs.
        apply lower_app_inv in Hs as (x1 & xs & -> & H1 & H2).
        exists x1, xs. repeat split; [exact H1 | now right]. }
    destruct Hsplit as (x1 & xs & -> & Hx1 & Hxs).
    rewrite str_app_assoc.
    rewrite (match_literal_ci_of_lower x1 "http" _ Hx1).
    assert (Hr2 : default (xs ++ "://" ++ h ++ "/" ++ slug ++ rest)
                    (Str.match_literal_ci "s" (xs ++ "://" ++ h ++ "/" ++ slug ++ rest))
                  = ("://" ++ h ++ "/") ++ slug ++ rest).
    { rewrite !str_app_assoc. destruct Hxs as [->|Hxs].
      - change ("" ++ ?x) with x. now rewrite no_s_before_colon.
      - now rewrite (match_literal_ci_of_lower xs "s" _ Hxs). }
    rewrite Hr2.
    rewrite (match_literal_ci_of_lower ("://" ++ h ++ "/") ("://" ++ host ++ "/")).
    + rewrite (take_while_app _ _ _ Hall Hrest). now rewrite Hne.
    + rewrite !lower_app, Hh. reflexivity.
Qed.

(** No url is a url of both boards. *)
Lemma boards_disjoint (u s1 s2 : string) :
  GH_RE_match u = Some s1 -> LEVER_RE_match u = Some s2 -> False.
Proof.
  unfold GH_RE_match, LEVER_RE_match. rewrite !match_board_unfold.
  destruct (Str.match_literal_ci "http" u) as [r1|]; [| discriminate].
  generalize (default r1 (Str.match_literal_ci "s" r1)). intros r2.
  destruct (Str.match_literal_ci "://boards.greenhouse.io/" r2) as [ra|] eqn:Ha;
    [| discriminate].
  destruct (Str.match_literal_ci "://jobs.lever.co/" r2) as [rb|] eqn:Hb;
    [| discriminate].
  intros _ _.
  destruct (match_literal_ci_inv _ _ _ Ha) as (x & -> & Hx).
  destruct (match_literal_ci_inv _ _ _ Hb) as (y & Hy1 & Hy).
  destruct x as [|a1 [|a2 [|a3 [|a4 x]]]]; try discriminate Hx.
  destruct y as [|b1 [|b2 [|b3 [|b4 y]]]]; try discriminate Hy.
  cbn [Str.lower] in Hx, Hy. cbn [String.append] in Hy1.
  injection Hx as _ _ _ Ha4 _. injection Hy as _ _ _ Hb4 _.
  injection Hy1 as _ _ _ H4 _. subst b4. rewrite Ha4 in Hb4. discriminate Hb4.
Qed.

(* ===================================================================== *)
(** * Facts about the company fallback                                    *)
(* ===================================================================== *)

Lemma dot_free_cons (c : ascii) (l : string) :
  dot_free (String c l) = true -> Ascii.eqb c "." = false /\ dot_free l = true.
Proof.
  unfold dot_free. simpl. rewrite negb_orb, andb_true_iff, negb_true_iff.
  intros [Hc Hl]. split; [| exact Hl]. now rewrite Ascii.eqb_sym.
Qed.

Lemma split_dot_free (l : string) : dot_free l = true -> Str.split "." l = [l].
Proof.
  induction l as [|c l IH]; intros H; [reflexivity |].
  apply dot_free_cons in H as [Hc Hl]. simpl. now rewrite Hc, (IH Hl).
Qed.

Lemma split_app_dot (l rest : string) :
  dot_free l = true -> Str.split "." (l ++ String "." rest) = l :: Str.split "." rest.
Proof.
  induction l as [|c l IH]; intros H; [reflexivity |].
  apply dot_free_cons in H as [Hc Hl]. simpl. now rewrite Hc, (IH Hl).
Qed.

(** Splitting at the dots gives back the labels that were joined by dots. *)
Lemma split_concat (labels : list string) :
  labels <> [] -> Forall (fun l => dot_free l = true) labels ->
  Str.split "." (String.concat "." labels) = labels.
Proof.
  induction labels as [|l labels IH]; intros Hne Hall; [congruence |].
  apply Forall_cons in Hall as [Hl Hall].
  destruct labels as [|l' labels]; [now apply split_dot_free |].
  change (String.concat "." (l :: l' :: labels))
    with (l ++ String "." (String.concat "." (l' :: labels))).
  rewrite (split_app_dot _ _ Hl), IH; [reflexivity | congruence | exact Hall].
Qed.

Lemma second_to_last_app (front : list string) (a b : string) :
  second_to_last (front ++ [a; b]) = a.
Proof.
  unfold second_to_last. rewrite length_app. simpl length.
  replace (length front + 2 - 2)%nat with (length front + 0)%nat by lia.
  rewrite app_nth2_plus. reflexivity.
Qed.

Lemma normalize_company_slug_gh (u slug : string) :
  GH_RE_match u = Some slug -> normalize_company_from_url u = slug.
Proof. intros H. unfold normalize_company_from_url. now rewrite H. Qed.

Lemma normalize_company_slug_lever (u slug : string) :
  LEVER_RE_match u = Some slug -> normalize_company_from_url u = slug.
Proof.
  intros H. unfold normalize_company_from_url.
  destruct (GH_RE_match u) as [s|] eqn:Hg; [| now rewrite H].
  destruct (boards_disjoint _ _ _ Hg H).
Qed.

(** What the normalizer computes, on urls spelled with code points below
    U+0100: for a posting with an empty company it takes the company
    from the url: the slug when the url is a url of one of the two
    boards; otherwise the second-to-last of the dot-separated pieces of
    the network location of the url (the host together with any user
    information before it and any port after it), the empty string when
    the network location has no dot, and the empty string when the url
    does not parse.  A posting that has a company keeps it. *)
Theorem normalize_company_from_url_spec (u : string) :
  (forall slug, board_url "boards.greenhouse.io" slug u ->
                normalize_company_from_url u = slug)
  /\ (forall slug, board_url "jobs.lever.co" slug u ->
                   normalize_company_from_url u = slug)
  /\ ((forall slug, ~ board_url "boards.greenhouse.io" slug u) ->
      (forall slug, ~ board_url "jobs.lever.co" slug u) ->
      match urlparse_netloc u with
      | Some netloc =>
          (forall front a b,
              netloc = String.concat "." (front ++ [a; b]) ->
              Forall (fun l => dot_free l = true) (front ++ [a; b]) ->
              normalize_company_from_url u = a)
          /\ (dot_free netloc = true -> normalize_company_from_url u = "")
      | None => normalize_company_from_url u = ""
      end)
  /\ (forall p, url p = u ->
        company (normalize_and_score p)
        = if Str.is_empty (company p) then normalize_company_from_url u else company p).
Proof.
  repeat apply conj.
  - intros slug H. apply normalize_company_slug_gh.
    now apply (match_board_board_url "boards.greenhouse.io").
  - intros slug H. apply normalize_company_slug_lever.
    now apply (match_board_board_url "jobs.lever.co").
  - intros Hgh Hlever. unfold normalize_company_from_url.
    destruct (GH_RE_match u) as [s|] eqn:Hg.
    { destruct (Hgh s). now apply (match_board_board_url "boards.greenhouse.io"). }
    destruct (LEVER_RE_match u) as [s|] eqn:Hl.
    { destruct (Hlever s). now apply (match_board_board_url "jobs.lever.co"). }
    destruct (urlparse_netloc u) as [netloc|]; [| reflexivity].
    split.
    + intros front a b -> Hall.
      rewrite split_concat; [| now destruct front | exact Hall].
      rewrite second_to_last_app, length_app. simpl length.
      destruct (Nat.leb_spec 2 (length front + 2)); [reflexivity | lia].
    + intros Hfree. now rewrite (split_dot_free _ Hfree).
  - intros p <-. reflexivity.
Qed.

(** C8: the fallback of the normalizer splits the network location of
    the url, not its host.  On [https://recruiter@example.com/jobs],
    a url of neither board, the host is [example.com], whose
    second-to-last label is [example]; the code answers
    [recruiter@example], the piece of the network location that holds
    the user information, and [run_scan] back-fills a posting without
    company with it.  The source names the value it splits [host] and
    the step a domain-based fallback. *)
Theorem company_from_url_with_userinfo :
  GH_RE_match "https://recruiter@example.com/jobs" = None
  /\ LEVER_RE_match "https://recruiter@example.com/jobs" = None
  /\ urlparse_netloc "https://recruiter@example.com/jobs" = Some "recruiter@example.com"
  /\ host_of_netloc "recruiter@example.com" = "example.com"
  /\ second_to_last (Str.split "." "example.com") = "example"
  /\ normalize_company_from_url "https://recruiter@example.com/jobs" = "recruiter@example"
  /\ company (normalize_and_score
                (sample_posting "Sales Operations Manager" "" "Remote"
                   "https://recruiter@example.com/jobs" "generic"))
     = "recruiter@example".
Proof. repeat split; vm_compute; reflexivity. Qed.

(* ===================================================================== *)
(** * More on the deduplicator                                            *)
(* ===================================================================== *)

(** The postings kept by the loop carry pairwise distinct keys, none of
    them seen before. *)
Lemma dedupe_loop_fresh (posts : list JobPosting) seen :
  Forall (fun r => dedupe_key r ∉ seen) (dedupe_loop posts seen [])
  /\ NoDup (map dedupe_key (dedupe_loop posts seen [])).
Proof.
  revert seen. induction posts as [|p rest IH]; intros seen; simpl.
  - split; constructor.
  - case_decide as Hseen; [apply IH |].
    rewrite dedupe_loop_acc. simpl.
    destruct (IH ({[dedupe_key p]} ∪ seen)) as [Hall Hnd].
    split.
    + constructor; [exact Hseen |].
      eapply Forall_impl; [exact Hall |]. intros r Hr. cbv beta in Hr.
      intros Hin. apply Hr. now apply elem_of_union_r.
    + constructor; [| exact Hnd].
      intros Hin. apply list_elem_of_In, in_map_iff in Hin as (r & Hr & Hrin).
      apply list_elem_of_In in Hrin.
      rewrite Forall_forall in Hall. apply (Hall r Hrin).
      apply elem_of_union_l, elem_of_singleton. congruence.
Qed.

(** On postings with pairwise distinct unseen keys the loop keeps all. *)
Lemma dedupe_loop_distinct (posts : list JobPosting) seen :
  NoDup (map dedupe_key posts) ->
  Forall (fun p => dedupe_key p ∉ seen) posts ->
  dedupe_loop posts seen [] = posts.
Proof.
  revert seen. induction posts as [|p rest IH]; intros seen Hnd Hall; [reflexivity |].
  simpl in Hnd. apply NoDup_cons in Hnd as [Hp Hnd].
  apply Forall_cons in Hall as [Hps Hall]. simpl.
  rewrite decide_False by exact Hps.
  rewrite dedupe_loop_acc. simpl. f_equal. apply IH; [exact Hnd |].
  apply Forall_forall. intros r Hr Hin.
  apply elem_of_union in Hin as [Hin|Hin].
  - apply elem_of_singleton in Hin. apply Hp.
    apply list_elem_of_In, in_map_iff. exists r.
    split; [exact Hin | now apply list_elem_of_In].
  - rewrite Forall_forall in Hall. exact (Hall r Hr Hin).
Qed.

(** X1: the output of [dedupe] holds no two postings with the same key,
    holds a posting for every key of the input, and is never longer
    than the input. *)
Theorem dedupe_output_keys_distinct (posts : list JobPosting) :
  NoDup (map dedupe_key (dedupe posts))
  /\ (forall p, p ∈ posts -> exists r, r ∈ dedupe posts /\ dedupe_key r = dedupe_key p)
  /\ (length (dedupe posts) <= length posts)%nat.
Proof.
  repeat apply conj.
  - apply dedupe_loop_fresh.
  - intros p Hp.
    pose proof (dedupe_loop_filter (dedupe_key p) posts ∅) as Hf.
    rewrite decide_False in Hf by apply not_elem_of_empty.
    assert (Hin : p ∈ filter (fun x => dedupe_key x = dedupe_key p) posts)
      by (apply list_elem_of_filter; split; [reflexivity | exact Hp]).
    destruct (filter (fun x => dedupe_key x = dedupe_key p) posts) as [|r l];
      [inversion Hin |].
    simpl in Hf. exists r.
    assert (Hr : r ∈ filter (fun x => dedupe_key x = dedupe_key p) (dedupe posts))
      by (unfold dedupe; rewrite Hf; left).
    apply list_elem_of_filter in Hr as [Hk Hr]. split; assumption.
  - apply sublist_length, dedupe_loop_sublist.
Qed.

(** X2: a list whose postings carry pairwise distinct keys passes
    through [dedupe] unchanged. *)
Theorem dedupe_distinct_keys_unchanged (posts : list JobPosting) :
  NoDup (map dedupe_key posts) -> dedupe posts = posts.
Proof.
  intros Hnd. apply dedupe_loop_distinct; [exact Hnd |].
  apply Forall_forall. intros p _. apply not_elem_of_empty.
Qed.

(** X3: deduplicating a deduplicated list changes nothing. *)
Theorem dedupe_idempotent (posts : list JobPosting) :
  dedupe (dedupe posts) = dedupe posts.
Proof.
  apply dedupe_loop_distinct; [apply dedupe_loop_fresh |].
  apply Forall_forall. intros p _. apply not_elem_of_empty.
Qed.

(* ===================================================================== *)
(** * More on normalizing, scoring and the store                          *)
(* ===================================================================== *)

Lemma or_else_or_else (a b : string) :
  Str.or_else (Str.or_else a b) b = Str.or_else a b.
Proof. unfold Str.or_else. destruct a; simpl; [now destruct b | reflexivity]. Qed.

Lemma heuristic_score_title_source (p q : JobPosting) :
  title p = title q -> source p = source q -> heuristic_score p = heuristic_score q.
Proof.
  intros Ht Hs. unfold heuristic_score, raw_score. now rewrite Ht, Hs.
Qed.

(** X4: the back-fill and scoring step of [run_scan] is idempotent, and
    it changes neither the key under which [dedupe] files the posting
    nor any column of the row stored for it except the score. *)
Theorem normalize_and_score_stable (p : JobPosting) :
  normalize_and_score (normalize_and_score p) = normalize_and_score p
  /\ dedupe_key (normalize_and_score p) = dedupe_key p
  /\ row_of (normalize_and_score p)
     = {| row_title := row_title (row_of p); row_company := row_company (row_of p);
          row_location := row_location (row_of p); row_url := row_url (row_of p);
          row_source := row_source (row_of p); row_posted_at := row_posted_at (row_of p);
          row_captured_at := row_captured_at (row_of p);
          row_match_score := heuristic_score p |}.
Proof.
  repeat apply conj.
  - unfold normalize_and_score. simpl. rewrite or_else_or_else. reflexivity.
  - unfold dedupe_key, normalize_and_score. simpl. now rewrite or_else_or_else.
  - unfold row_of, normalize_and_score. simpl. rewrite or_else_or_else. reflexivity.
Qed.

Lemma matches_role_hits (t : string) :
  matches_role t = true ->
  1 <= hits (fun k => Str.contains (Str.lower k) (Str.lower t)) ROLE_KEYWORDS.
Proof.
  unfold matches_role, hits. generalize ROLE_KEYWORDS.
  intros l. induction l as [|k l IH]; simpl; [discriminate |].
  destruct (Str.contains (Str.lower k) (Str.lower t)); simpl; intros H.
  - simpl length. lia.
  - apply IH in H. lia.
Qed.

(** X5: every posting that [run_scan] hands to the store carries the
    score [heuristic_score] gives it, and that score is at least 20 and
    at most 100. *)
Theorem persisted_score_between_20_and_100 (db : option (list Row)) (flat : list JobPosting) :
  Forall (fun q => match_score q = heuristic_score q /\ 20 <= match_score q <= 100)
         (scan_persisted (run_scan db flat)).
Proof.
  rewrite run_scan_persisted. apply Forall_forall. intros q Hq.
  pose proof (elem_of_sublist _ _ _ Hq (dedupe_loop_sublist _ _)) as Hf.
  destruct (filter_and_score_elem _ _ Hf) as (p & _ & Hm & ->).
  assert (Hs : match_score (normalize_and_score p) = heuristic_score (normalize_and_score p))
    by (apply heuristic_score_title_source; reflexivity).
  split; [exact Hs |]. rewrite Hs.
  unfold heuristic_score. rewrite raw_score_count. simpl.
  pose proof (matches_role_hits _ Hm).
  pose proof (hits_nonneg (fun b => Str.contains b (Str.lower (title p))) BONUS_TERMS).
  destruct (known_ats (source p)); lia.
Qed.

Lemma url_absent_not_in (u : string) (t : list Row) :
  url_present u t = false -> u ∉ map row_url t.
Proof.
  intros H Hin. apply list_elem_of_In, in_map_iff in Hin as (r & Hr & Hrin).
  assert (url_present u t = true); [| congruence].
  unfold url_present. apply existsb_exists. exists r.
  split; [exact Hrin | now apply String.eqb_eq].
Qed.

(** X6: [upsert_jobs] keeps the uniqueness of urls in the table: when no
    two rows share a url before the call, none do after it. *)
Theorem upsert_jobs_keeps_urls_unique (posts : list JobPosting) (table : list Row) :
  NoDup (map row_url table) -> NoDup (map row_url (upsert_jobs posts table).1).
Proof.
  intros Hnd. unfold upsert_jobs.
  destruct (upsert_loop_spec posts table 0) as (added & Hrun & Hadd & Hnew & _).
  rewrite Hrun. simpl. rewrite map_app. apply NoDup_app. repeat split; try assumption.
  intros u Hu Hin. apply list_elem_of_In, in_map_iff in Hin as (r & <- & Hr).
  rewrite Forall_forall in Hnew. apply list_elem_of_In in Hr.
  exact (url_absent_not_in _ _ (Hnew r Hr) Hu).
Qed.

(** X7: the count returned by [upsert_jobs] is the number of rows the
    table grew by; it lies between 0 and the number of postings
    offered. *)
Theorem upsert_jobs_count (posts : list JobPosting) (table : list Row) :
  0 <= (upsert_jobs posts table).2 <= Z.of_nat (length posts)
  /\ Z.of_nat (length (upsert_jobs posts table).1)
     = Z.of_nat (length table) + (upsert_jobs posts table).2.
Proof.
  unfold upsert_jobs.
  destruct (upsert_loop_spec posts table 0) as (added & Hrun & _ & _ & Hsub & _).
  rewrite Hrun. simpl. apply sublist_length in Hsub.
  rewrite length_map in Hsub. rewrite length_app. lia.
Qed.

Lemma upsert_loop_fresh (posts : list JobPosting) (table : list Row) (n : Z) :
  NoDup (map url posts) ->
  Forall (fun p => url_present (url p) table = false) posts ->
  upsert_loop posts table n
  = ((table ++ map row_of posts)%list, n + Z.of_nat (length posts)).
Proof.
  revert table n. induction posts as [|p rest IH]; intros table n Hnd Hall.
  - simpl. now rewrite app_nil_r, Z.add_0_r.
  - simpl in Hnd. apply NoDup_cons in Hnd as [Hp Hnd].
    apply Forall_cons in Hall as [Hpa Hall].
    simpl. unfold insert_or_ignore. simpl. rewrite Hpa.
    replace (if 1 =? 0 then n else n + 1) with (n + 1) by reflexivity.
    rewrite IH; [| exact Hnd |].
    + rewrite <- app_assoc. simpl. f_equal. lia.
    + apply Forall_forall. intros q Hq.
      rewrite url_present_app. rewrite Forall_forall in Hall. rewrite (Hall q Hq).
      unfold url_present. simpl. rewrite orb_false_r.
      apply String.eqb_neq. intros Heq. apply Hp.
      apply list_elem_of_In, in_map_iff. exists q.
      split; [now symmetry | now apply list_elem_of_In].
Qed.

(** X8: postings with pairwise distinct urls, none of them stored yet,
    are all inserted, in the order given: the table grows by their rows
    and the count is their number. *)
Theorem upsert_jobs_all_new (posts : list JobPosting) (table : list Row) :
  NoDup (map url posts) ->
  Forall (fun p => url_present (url p) table = false) posts ->
  upsert_jobs posts table
  = ((table ++ map row_of posts)%list, Z.of_nat (length posts)).
Proof.
  intros Hnd Hall. unfold upsert_jobs. now rewrite upsert_loop_fresh.
Qed.

(** X9: after [upsert_jobs] every posting offered is found in the table
    by its url; the row found is the one stored before the call when the
    url was stored, and otherwise the row of the first posting offered
    under that url. *)
Theorem upsert_jobs_lookup (posts : list JobPosting) (table : list Row) (p : JobPosting) :
  p ∈ posts ->
  exists r,
    find_url (url p) (upsert_jobs posts table).1 = Some r
    /\ row_url r = url p
    /\ (url_present (url p) table = true -> find_url (url p) table = Some r)
    /\ (url_present (url p) table = false ->
        exists q, List.find (fun x => String.eqb (url x) (url p)) posts = Some q
                  /\ r = row_of q).
Proof.
  intros Hp. unfold upsert_jobs.
  destruct (upsert_loop_spec posts table 0) as (added & Hrun & _ & _ & _ & _ & Hfind).
  rewrite Hrun. simpl. rewrite Hfind, find_url_app.
  destruct (find_url (url p) table) as [r|] eqn:Ht.
  - exists r. repeat split.
    + unfold find_url in Ht. apply find_some in Ht as [_ Hr]. now apply String.eqb_eq.
    + intros Habs. assert (url_present (url p) table = true); [| congruence].
      unfold find_url in Ht. apply find_some in Ht as [Hin Hr].
      unfold url_present. apply existsb_exists. eauto.
  - assert (Hposts : exists q,
        List.find (fun x => String.eqb (url x) (url p)) posts = Some q
        /\ find_url (url p) (map row_of posts) = Some (row_of q)).
    { clear Hrun Hfind. unfold find_url.
      induction posts as [|x rest IH]; [inversion Hp |].
      simpl. destruct (String.eqb (url x) (url p)) eqn:Hx; [eauto |].
      apply elem_of_cons in Hp as [->|Hp]; [| now apply IH].
      now rewrite String.eqb_refl in Hx. }
    destruct Hposts as (q & Hq & Hrow). exists (row_of q). rewrite Hrow.
    repeat split.
    + simpl. apply find_some in Hq as [_ Hq]. now apply String.eqb_eq.
    + intros Hpres. destruct (find_url_present _ _ Hpres) as [r Hr]. congruence.
    + intros _. eauto.
Qed.

(* ===================================================================== *)
(** * More on the orchestrator                                            *)
(* ===================================================================== *)

Lemma filter_and_score_length (flat : list JobPosting) :
  (length (filter_and_score flat) <= length flat)%nat.
Proof.
  induction flat as [|p rest IH]; simpl; [lia |].
  destruct (matches_role (title p)); simpl; lia.
Qed.

Lemma run_scan_unfold (db : option (list Row)) (flat : list JobPosting) :
  run_scan db flat
  = {| scan_matched := length (dedupe (filter_and_score flat));
       scan_inserted := (upsert_jobs (dedupe (filter_and_score flat)) (ensure_db db)).2;
       scan_persisted := dedupe (filter_and_score flat);
       scan_table := (upsert_jobs (dedupe (filter_and_score flat)) (ensure_db db)).1 |}.
Proof.
  unfold run_scan. now destruct (upsert_jobs _ _).
Qed.

(** X10: the two counts [run_scan] returns: the first is the number of
    postings handed to the store and at most the number of parsed
    postings; the second lies between 0 and the first and is the number
    of rows the table grew by. *)
Theorem run_scan_counts (db : option (list Row)) (flat : list JobPosting) :
  scan_matched (run_scan db flat) = length (scan_persisted (run_scan db flat))
  /\ (scan_matched (run_scan db flat) <= length flat)%nat
  /\ 0 <= scan_inserted (run_scan db flat) <= Z.of_nat (scan_matched (run_scan db flat))
  /\ Z.of_nat (length (scan_table (run_scan db flat)))
     = Z.of_nat (length (ensure_db db)) + scan_inserted (run_scan db flat).
Proof.
  rewrite run_scan_unfold. simpl. unfold upsert_jobs.
  destruct (upsert_loop_spec (dedupe (filter_and_score flat)) (ensure_db db) 0)
    as (added & Hrun & _ & _ & Hsub & _).
  rewrite Hrun. simpl.
  apply sublist_length in Hsub. rewrite length_map in Hsub.
  pose proof (sublist_length _ _ (dedupe_loop_sublist (filter_and_score flat) ∅)) as Hd.
  fold (dedupe (filter_and_score flat)) in Hd.
  pose proof (filter_and_score_length flat).
  rewrite length_app. repeat split; lia.
Qed.

(** X11: running the scan again on the same parsed postings, against the
    store the first run left, hands the same postings to the store,
    inserts none and leaves the table as it was. *)
Theorem run_scan_again_inserts_nothing (db : option (list Row)) (flat : list JobPosting) :
  let first := run_scan db flat in
  let second := run_scan (Some (scan_table first)) flat in
  scan_persisted second = scan_persisted first
  /\ scan_matched second = scan_matched first
  /\ scan_inserted second = 0
  /\ scan_table second = scan_table first.
Proof.
  cbv zeta. rewrite !run_scan_unfold. simpl. unfold upsert_jobs.
  destruct (upsert_loop_spec (dedupe (filter_and_score flat)) (ensure_db db) 0)
    as (added & Hrun & _ & _ & _ & Hall & _).
  rewrite Hrun. simpl.
  rewrite (upsert_loop_present _ _ 0 Hall). repeat split.
Qed.

(** The keyword filter keeps the postings it is given in order, each
    passed through the back-fill and scoring step. *)
Lemma filter_and_score_all (posts : list JobPosting) :
  Forall (fun p => matches_role (title p) = true) posts ->
  filter_and_score posts = map normalize_and_score posts.
Proof.
  induction 1 as [|p rest Hp _ IH]; simpl; [reflexivity |].
  now rewrite Hp, IH.
Qed.

Lemma generic_posting_title (cls : JobPosting_class) (now u : string) (n : node) (p : JobPosting) :
  generic_posting cls now u n = Some p ->
  matches_role (title p) = true /\ company p = "" /\ location p = ""
  /\ source p = "generic" /\ posted_at p = None.
Proof.
  unfold generic_posting.
  destruct (Str.is_empty (node_text n)); [discriminate |].
  destruct (matches_role (node_text n)) eqn:Hm; [| discriminate].
  intros [= <-]. simpl. repeat split. exact Hm.
Qed.

Lemma omap_Forall {A B : Type} (f : A -> option B) (P : B -> Prop) (l : list A) :
  (forall a b, f a = Some b -> P b) -> Forall P (omap f l).
Proof.
  intros H. induction l as [|a l IH]; simpl; [constructor |].
  destruct (f a) as [b|] eqn:Hf; [constructor; eauto | exact IH].
Qed.

(** X12: the keyword filter of [run_scan] removes no posting emitted by
    [parse_generic]: each already matched a role keyword in the parser,
    so all of them, in order, are normalized, scored and passed on. *)
Theorem generic_postings_pass_filter (cls : JobPosting_class) (now u : string)
    (page : option (list node)) :
  filter_and_score (parse_generic cls now u page)
  = map normalize_and_score (parse_generic cls now u page).
Proof.
  apply filter_and_score_all. unfold parse_generic.
  destruct page as [nodes|]; [| constructor].
  apply omap_Forall. intros n p Hp.
  now destruct (generic_posting_title _ _ _ _ _ Hp).
Qed.

(* ===================================================================== *)
(** * Facts about discovery                                               *)
(* ===================================================================== *)

Lemma unique_loop_acc (urls : list string) (seen : gset string) (unique : list string) :
  unique_loop urls seen unique = (unique ++ unique_loop urls seen [])%list.
Proof.
  revert seen unique. induction urls as [|u rest IH]; intros seen unique; simpl.
  - now rewrite app_nil_r.
  - case_decide; [apply IH |].
    rewrite IH, (IH _ [u]). now rewrite <- app_assoc.
Qed.

Lemma unique_loop_elem (urls : list string) (seen : gset string) (u : string) :
  u ∈ unique_loop urls seen [] <-> u ∈ urls /\ u ∉ seen.
Proof.
  revert seen. induction urls as [|v rest IH]; intros seen; simpl.
  - split; [intros H; inversion H | intros [H _]; inversion H].
  - case_decide as Hv.
    + rewrite IH, elem_of_cons. split; [tauto |].
      intros [[->|H] Hs]; [contradiction | tauto].
    + rewrite unique_loop_acc. simpl. rewrite !elem_of_cons, IH, elem_of_union,
        elem_of_singleton.
      split.
      * intros [->|[H Hs]]; [tauto |]. split; [tauto |]. intros Hin. apply Hs. now right.
      * intros [[->|H] Hs]; [now left |].
        destruct (decide (u = v)) as [->|Hne]; [now left |]. right. split; [exact H |].
        intros [Heq|Hin]; contradiction.
Qed.

Lemma unique_loop_NoDup (urls : list string) (seen : gset string) :
  NoDup (unique_loop urls seen []).
Proof.
  revert seen. induction urls as [|v rest IH]; intros seen; simpl; [constructor |].
  case_decide as Hv; [apply IH |].
  rewrite unique_loop_acc. simpl. constructor; [| apply IH].
  rewrite unique_loop_elem. intros [_ Hs]. apply Hs.
  now apply elem_of_union_l, elem_of_singleton.
Qed.

Lemma unique_loop_sublist (urls : list string) (seen : gset string) :
  unique_loop urls seen [] `sublist_of` urls.
Proof.
  revert seen. induction urls as [|v rest IH]; intros seen; simpl; [constructor |].
  case_decide.
  - apply sublist_cons, IH.
  - rewrite unique_loop_acc. simpl. apply sublist_skip, IH.
Qed.

Lemma collect_links_elem (items : list (option string)) (u : string) :
  u ∈ collect_links items <-> Some u ∈ items /\ Str.is_empty u = false.
Proof.
  induction items as [|item rest IH]; simpl.
  - split; [intros H; inversion H | intros [H _]; inversion H].
  - destruct item as [link|].
    + destruct (Str.is_empty link) eqn:He.
      * rewrite IH, elem_of_cons. split; [tauto |].
        intros [[[= ->]|H] Hu]; [congruence | tauto].
      * rewrite !elem_of_cons, IH. split.
        -- intros [->|[H Hu]]; [split; [now left | exact He] | tauto].
        -- intros [[[= ->]|H] Hu]; [now left | tauto].
    + rewrite IH, elem_of_cons. split; [tauto |].
      intros [[H|H] Hu]; [discriminate | tauto].
Qed.

(** The loop keeps the unseen elements at their first occurrence. *)
Lemma unique_loop_first_mentions (urls : list string) (seen : gset string) :
  unique_loop urls seen [] = filter (fun v => v ∉ seen) (first_mentions urls).
Proof.
  revert seen. induction urls as [|u rest IH]; intros seen; [reflexivity |].
  cbn [unique_loop first_mentions]. rewrite filter_cons.
  destruct (decide (u ∈ seen)) as [Hin|Hout].
  - rewrite IH. rewrite decide_False by tauto.
    symmetry. apply list_filter_filter_l. intros v Hv ->. contradiction.
  - rewrite decide_True by exact Hout.
    rewrite unique_loop_acc, IH. cbn [app]. f_equal.
    rewrite list_filter_filter. apply list_filter_iff. intros v.
    rewrite elem_of_union, elem_of_singleton. tauto.
Qed.

Lemma first_mentions_elem (l : list string) (u : string) :
  u ∈ first_mentions l <-> u ∈ l.
Proof.
  induction l as [|v rest IH]; [reflexivity |].
  cbn [first_mentions]. rewrite !elem_of_cons, list_elem_of_filter, IH.
  destruct (decide (u = v)); tauto.
Qed.

(** The first mentions of a list followed by another: those of the
    first list, then those of the second that the first did not hold. *)
Lemma first_mentions_app (l1 l2 : list string) :
  first_mentions (l1 ++ l2)
  = (first_mentions l1 ++ filter (fun v => v ∉ l1) (first_mentions l2))%list.
Proof.
  induction l1 as [|u l1 IH].
  - cbn [app first_mentions]. symmetry.
    rewrite (list_filter_iff _ (fun _ => True));
      [| intros v; split; [tauto | intros _ H; inversion H]].
    induction (first_mentions l2) as [|v l IHl]; [reflexivity |].
    rewrite filter_cons_True by exact I. now rewrite IHl.
  - cbn [app first_mentions]. rewrite IH, filter_app, list_filter_filter.
    cbn [app]. do 2 f_equal. apply list_filter_iff. intros v.
    rewrite not_elem_of_cons. tauto.
Qed.

(** X13: the urls [discover_urls] returns are pairwise distinct; a url
    is returned exactly when a key is configured and the url is a
    non-empty link among the organic results of the reply to one of the
    queries; and the list returned is the list of all links, reply after
    reply in the order of the queries, with every link kept at its
    first occurrence and dropped at each later one. *)
Theorem discover_urls_distinct_links (key : option string) (replies : string -> search_reply) :
  NoDup (discover_urls key replies)
  /\ (forall u,
        u ∈ discover_urls key replies
        <-> Str.is_empty (default "" key) = false
            /\ exists q organic,
                 q ∈ search_queries
                 /\ replies q = SearchData (Some organic)
                 /\ Some u ∈ organic /\ Str.is_empty u = false)
  /\ discover_urls key replies
     = first_mentions
         (concat (map (fun q => serpapi_search key (replies q)) search_queries)).
Proof.
  unfold discover_urls. split; [| split].
  - apply unique_loop_NoDup.
  - intros u. rewrite unique_loop_elem.
    generalize search_queries. intros queries. split.
    + intros [Hin _]. apply list_elem_of_In, in_concat in Hin as (links & Hl & Hu).
      apply in_map_iff in Hl as (q & <- & Hq).
      unfold serpapi_search in Hu.
      destruct (Str.is_empty (default "" key)); [inversion Hu |].
      split; [reflexivity |].
      destruct (replies q) as [|[organic|]] eqn:Hr; try (now inversion Hu).
      apply list_elem_of_In, collect_links_elem in Hu as [Hu He].
      exists q, organic. repeat split; try assumption. now apply list_elem_of_In.
    + intros (Hkey & q & organic & Hq & Hr & Hu & He).
      split; [| apply not_elem_of_empty].
      apply list_elem_of_In, in_concat.
      exists (serpapi_search key (replies q)). split.
      * apply in_map_iff. exists q. split; [reflexivity | now apply list_elem_of_In].
      * unfold serpapi_search. rewrite Hkey, Hr. simpl.
        apply list_elem_of_In, collect_links_elem. split; assumption.
  - rewrite unique_loop_first_mentions.
    rewrite (list_filter_iff _ (fun _ => True)); [| intros v; split; [tauto |];
      intros _; apply not_elem_of_empty].
    generalize (first_mentions
                  (concat (map (fun q => serpapi_search key (replies q)) search_queries))).
    intros l. induction l as [|v l IH]; [reflexivity |].
    rewrite filter_cons_True by exact I. now rewrite IH.
Qed.

(* ===================================================================== *)
(** * Facts about the patterns and the dispatcher                         *)
(* ===================================================================== *)

(** X14: among the urls spelled with code points below U+0100, the two
    compiled patterns accept exactly the urls of their board and capture
    the slug: [GH_RE] matches such a url with group 1 equal to [slug]
    exactly when the url is a url of [boards.greenhouse.io] with that
    slug, likewise [LEVER_RE] for [jobs.lever.co]; a captured slug is
    never empty and holds none of [/], [?], [#]; and no url is matched
    by both patterns. *)
Theorem board_patterns_exact (u slug : string) :
  (GH_RE_match u = Some slug <-> board_url "boards.greenhouse.io" slug u)
  /\ (LEVER_RE_match u = Some slug <-> board_url "jobs.lever.co" slug u)
  /\ (GH_RE_match u = Some slug \/ LEVER_RE_match u = Some slug ->
      Str.is_empty slug = false /\ Str.forallb slug_char slug = true)
  /\ (GH_RE_match u = None \/ LEVER_RE_match u = None).
Proof.
  split; [| split; [| split]].
  - exact (match_board_board_url "boards.greenhouse.io" slug u).
  - exact (match_board_board_url "jobs.lever.co" slug u).
  - intros [H|H].
    + apply (match_board_board_url "boards.greenhouse.io") in H
        as (sc & h & rest & _ & _ & _ & Hne & Hall & _). now split.
    + apply (match_board_board_url "jobs.lever.co") in H
        as (sc & h & rest & _ & _ & _ & Hne & Hall & _). now split.
  - destruct (GH_RE_match u) as [s1|] eqn:Hg; [| now left].
    destruct (LEVER_RE_match u) as [s2|] eqn:Hl; [| now right].
    destruct (boards_disjoint _ _ _ Hg Hl).
Qed.

Lemma greenhouse_posting_fields (cls : JobPosting_class) (now : string)
    (slug : option string) (job : gh_card) (p : JobPosting) :
  greenhouse_posting cls now slug job = Some p ->
  source p = "greenhouse" /\ company p = default "" slug
  /\ Str.is_empty (title p) = false /\ posted_at p = None
  /\ captured_at p = captured_at_default cls /\ match_score p = 0.
Proof.
  unfold greenhouse_posting.
  destruct (card_href job) as [href|]; [| discriminate].
  destruct (Str.is_empty href); [discriminate |]. simpl.
  destruct (Str.is_empty (card_text job)) eqn:Ht; [discriminate |].
  intros [= <-]. simpl. repeat split. exact Ht.
Qed.

Lemma slug_not_empty (host_path u slug : string) :
  match_board host_path u = Some slug -> Str.is_empty slug = false.
Proof.
  rewrite match_board_unfold.
  destruct (Str.match_literal_ci "http" u) as [r1|]; [| discriminate].
  destruct (Str.match_literal_ci host_path _) as [r3|]; [| discriminate].
  destruct (Str.is_empty (Str.take_while slug_char r3)) eqn:He; [discriminate |].
  now intros [= <-].
Qed.

(** X15: what [parse_url] emits, by the shape of the url.  For a url of
    board A every posting has source [greenhouse], a non-empty title and
    the slug of the url as company; for a url of board B every posting
    has source [lever] or [lever-html] and the slug of the url as
    company; for any other url every posting has source [generic], no
    company, no location and a title that matches a role keyword.  All
    postings leave the parsers with score 0 and the class default as
    capture time, and the back-fill step leaves the company of a board
    posting as it is. *)
Theorem parse_url_postings (cls : JobPosting_class) (now u : string) (w : pages) :
  Forall (fun p =>
            match_score p = 0
            /\ captured_at p = captured_at_default cls
            /\ match parser_for u with
               | Greenhouse =>
                   source p = "greenhouse" /\ Str.is_empty (title p) = false
                   /\ GH_RE_match u = Some (company p)
                   /\ company (normalize_and_score p) = company p
               | Lever =>
                   (source p = "lever" \/ source p = "lever-html")
                   /\ LEVER_RE_match u = Some (company p)
                   /\ company (normalize_and_score p) = company p
               | Generic =>
                   source p = "generic" /\ company p = "" /\ location p = ""
                   /\ matches_role (title p) = true
               end)
         (parse_url cls now u w).
Proof.
  unfold parse_url, parser_for.
  destruct (GH_RE_match u) as [slug|] eqn:Hg.
  - unfold parse_greenhouse. rewrite Hg.
    destruct (page_cards w) as [cards|]; [| constructor].
    apply omap_Forall. intros job p Hp.
    destruct (greenhouse_posting_fields _ _ _ _ _ Hp) as (Hs & Hc & Ht & _ & Hcap & Hm).
    simpl in Hc. subst slug.
    pose proof (slug_not_empty _ _ _ Hg) as Hne.
    repeat split; try assumption.
    simpl. unfold Str.or_else. now rewrite Hne.
  - destruct (LEVER_RE_match u) as [slug|] eqn:Hl.
    + pose proof (slug_not_empty _ _ _ Hl) as Hne.
      unfold parse_lever, lever_listing. rewrite Hl.
      match goal with |- Forall ?Q _ => set (P := Q) end.
      assert (Hloop : forall data, Forall P (lever_loop cls now slug u data []).1).
      { intros data. apply lever_loop_Forall; [| constructor].
        intros [item|] p; unfold lever_posting; [| discriminate].
        destruct (item_text item); try discriminate;
          (destruct (item_categories item); try discriminate;
           intros [= <-]; unfold P; simpl; repeat split; try (now left);
           unfold Str.or_else; now rewrite Hne). }
      assert (Hhtml : forall anchors,
                 Forall P (omap (lever_html_posting cls now slug) anchors)).
      { intros anchors. apply omap_Forall. intros a p. unfold lever_html_posting.
        destruct (Str.is_empty (anchor_text a)); [discriminate |].
        intros [= <-]. unfold P. simpl. repeat split; [now right |].
        unfold Str.or_else. now rewrite Hne. }
      destruct (page_listing w) as [data|].
      * specialize (Hloop data).
        destruct (lever_loop cls now slug u data []) as [postings returned].
        destruct returned; [exact Hloop |].
        destruct (page_anchors w) as [anchors|]; [| constructor].
        apply Forall_app. split; [exact Hloop | apply Hhtml].
      * destruct (page_anchors w) as [anchors|]; [| constructor].
        apply Hhtml.
    + unfold parse_generic.
      destruct (page_nodes w) as [nodes|]; [| constructor].
      apply omap_Forall. intros n p Hp.
      destruct (generic_posting_title _ _ _ _ _ Hp) as (Hm & Hc & Hloc & Hs & _).
      unfold generic_posting in Hp.
      destruct (Str.is_empty (node_text n)); [discriminate |].
      destruct (matches_role (node_text n)); [| discriminate].
      injection Hp as <-. simpl. repeat split. exact Hm.
Qed.

(* ===================================================================== *)
(** * More on the fetcher                                                 *)
(* ===================================================================== *)

Lemma mem_take_while (c : ascii) (f : ascii -> bool) (s : string) :
  Str.mem c (Str.take_while f s) = true -> Str.mem c s = true.
Proof.
  induction s as [|d s IH]; simpl; [discriminate |].
  destruct (f d); simpl; [| discriminate].
  destruct (Ascii.eqb c d); [reflexivity | exact IH].
Qed.

Lemma mem_drop_while (c : ascii) (f : ascii -> bool) (s : string) :
  Str.mem c (Str.drop_while f s) = true -> Str.mem c s = true.
Proof.
  induction s as [|d s IH]; simpl; [discriminate |].
  destruct (f d); [| exact (fun H => H)].
  intros H. rewrite (IH H). apply orb_true_r.
Qed.

Lemma mem_filter (c : ascii) (f : ascii -> bool) (s : string) :
  Str.mem c (Str.filter f s) = true -> Str.mem c s = true.
Proof.
  induction s as [|d s IH]; simpl; [discriminate |].
  destruct (f d); simpl.
  - destruct (Ascii.eqb c d); [reflexivity | exact IH].
  - intros H. rewrite (IH H). apply orb_true_r.
Qed.

Lemma mem_substring_from (c : ascii) (n : nat) (s : string) :
  Str.mem c (Str.substring_from n s) = true -> Str.mem c s = true.
Proof.
  revert s. induction n as [|n IH]; intros s; [exact (fun H => H) |].
  destruct s as [|d s]; simpl; [discriminate |].
  intros H. rewrite (IH _ H). apply orb_true_r.
Qed.

Lemma mem_partition_after (c sep : ascii) (s before after : string) :
  partition_char sep s = Some (before, after) ->
  Str.mem c after = true -> Str.mem c s = true.
Proof.
  revert before. induction s as [|d s IH]; intros before; simpl; [discriminate |].
  destruct (Ascii.eqb d sep).
  - intros [= _ <-] H. rewrite H. apply orb_true_r.
  - destruct (partition_char sep s) as [[b a]|]; [| discriminate].
    intros [= _ <-] H. rewrite (IH b eq_refl H). apply orb_true_r.
Qed.

Lemma mem_drop_scheme (c : ascii) (s : string) :
  Str.mem c (drop_scheme s) = true -> Str.mem c s = true.
Proof.
  unfold drop_scheme.
  destruct (partition_char ":" s) as [[before after]|] eqn:Hp; [| exact (fun H => H)].
  destruct before as [|c0 before]; [exact (fun H => H) |].
  destruct (_ && _)%bool; [| exact (fun H => H)].
  exact (mem_partition_after _ _ _ _ _ Hp).
Qed.

(** A character of the network location is a character of the url. *)
Lemma urlparse_netloc_raises (u : string) :
  urlparse_netloc u = None -> (Str.mem "[" u || Str.mem "]" u)%bool = true.
Proof.
  unfold urlparse_netloc.
  set (u1 := drop_scheme _).
  destruct (Str.startswith "//" u1); [| discriminate].
  set (netloc := Str.take_while slug_char (Str.substring_from 2 u1)).
  assert (Hsub : forall c, Str.mem c netloc = true -> Str.mem c u = true).
  { intros c H. subst netloc u1.
    apply mem_take_while, mem_substring_from, mem_drop_scheme, mem_filter,
      mem_drop_while in H. exact H. }
  intros H. apply orb_true_iff.
  destruct (Str.mem "[" netloc) eqn:Ho; [left; now apply Hsub |].
  destruct (Str.mem "]" netloc) eqn:Hc; [right; now apply Hsub |].
  discriminate H.
Qed.

(** X16: on a url spelled with code points below U+0100 that holds no
    square bracket [polite_get] never raises: it returns the response
    when one arrived with status 200 and the sentinel for every other
    status and every exception of the transport. *)
Theorem polite_get_returns_without_brackets (hits : gmap string Z) (now : Z)
    (get : get_outcome) (u : string) :
  Str.mem "[" u = false -> Str.mem "]" u = false ->
  fetch_outcome (polite_get hits now get u)
  = match get with
    | GetResponse _ r => if status_code r =? 200 then Returns (Some r) else Returns None
    | GetRaised _ => Returns None
    end.
Proof.
  intros Ho Hc.
  destruct (urlparse_netloc u) as [host|] eqn:Hn.
  - exact (polite_get_two_outcomes hits now get u host Hn).
  - apply urlparse_netloc_raises in Hn. rewrite Ho, Hc in Hn. discriminate Hn.
Qed.

(** X17: the throttle across two fetches of the same host.  When the
    first fetch got a response, stamped at [arrived], the second fetch
    sleeps long enough that its request goes out no earlier than
    [arrived] plus the minimum interval, and it does not sleep at all
    when that time has passed; the sleep is never negative. *)
Theorem polite_get_spaces_requests (hits : gmap string Z) (now1 arrived now2 : Z)
    (r : Response) (get2 : get_outcome) (u1 u2 host : string) :
  urlparse_netloc u1 = Some host -> urlparse_netloc u2 = Some host ->
  let first := polite_get hits now1 (GetResponse arrived r) u1 in
  let second := polite_get (fetch_hits first) now2 get2 u2 in
  0 <= fetch_slept second
  /\ arrived + RATE_LIMIT_PER_HOST <= now2 + fetch_slept second
  /\ (arrived + RATE_LIMIT_PER_HOST <= now2 -> fetch_slept second = 0).
Proof.
  intros H1 H2. cbv zeta. unfold polite_get. rewrite H1, H2. simpl.
  rewrite lookup_insert_eq. simpl.
  destruct get2; simpl; lia.
Qed.

(** X18: the bookkeeping of [polite_get].  The entry of every other
    host is left alone; the entry of the host of the url becomes the
    arrival time when a response arrived, whatever its status, and is
    left alone when the transport raised. *)
Theorem polite_get_stamps_its_host (hits : gmap string Z) (now : Z)
    (get : get_outcome) (u host : string) :
  urlparse_netloc u = Some host ->
  (forall other, other <> host ->
                 fetch_hits (polite_get hits now get u) !! other = hits !! other)
  /\ fetch_hits (polite_get hits now get u) !! host
     = match get with
       | GetResponse arrived _ => Some arrived
       | GetRaised _ => hits !! host
       end.
Proof.
  intros Hn. unfold polite_get. rewrite Hn.
  destruct get as [e|arrived r]; simpl.
  - split; reflexivity.
  - split; [| apply lookup_insert_eq].
    intros other Hne. now apply lookup_insert_ne.
Qed.

(* ===================================================================== *)
(** * Facts about the tasks of a scan                                     *)
(* ===================================================================== *)






















(* ===================================================================== *)
(** * The deduplicator in the pipeline                                    *)
(* ===================================================================== *)

(** [run_scan] back-fills the company of a posting before it calls
    [dedupe], so the key of every posting [dedupe] receives is its own
    lower-cased (title, company, location). *)
Lemma dedupe_key_back_filled (p : JobPosting) :
  dedupe_key (normalize_and_score p) = posting_triple (normalize_and_score p).
Proof.
  unfold dedupe_key, posting_triple. simpl. now rewrite or_else_or_else.
Qed.

Lemma filter_and_score_keys (flat : list JobPosting) :
  Forall (fun p => dedupe_key p = posting_triple p) (filter_and_score flat).
Proof.
  apply Forall_forall. intros q Hq.
  apply filter_and_score_elem in Hq as (p & _ & _ & ->).
  apply dedupe_key_back_filled.
Qed.

Lemma filter_triple_key (k : string * string * string) (l : list JobPosting) :
  Forall (fun p => dedupe_key p = posting_triple p) l ->
  filter (fun x => posting_triple x = k) l = filter (fun x => dedupe_key x = k) l.
Proof.
  induction 1 as [|p l Hp _ IH]; [reflexivity |].
  rewrite !filter_cons, IH.
  destruct (decide (posting_triple p = k)) as [H1|H1];
    destruct (decide (dedupe_key p = k)) as [H2|H2]; congruence.
Qed.

(** C2: in a run of the pipeline, two postings handed to the
    deduplicator with identical title, company and location, compared
    case-insensitively, yield exactly one record with that title,
    company and location in its output, whatever their urls and
    sources.  The record kept is the first posting of the input that
    carries them, and the output is a subsequence of the input, so input
    order is preserved.  The input of the deduplicator is the list the
    filter step of [run_scan] built, and its output the list handed to
    the persistence step. *)
Theorem dedupe_merges_identical_postings (db : option (list Row))
    (flat : list JobPosting) (p q : JobPosting) :
  p ∈ filter_and_score flat -> q ∈ filter_and_score flat ->
  Str.lower (title p) = Str.lower (title q) ->
  Str.lower (company p) = Str.lower (company q) ->
  Str.lower (location p) = Str.lower (location q) ->
  (exists r,
      filter (fun x => posting_triple x = posting_triple p)
        (dedupe (filter_and_score flat)) = [r]
      /\ head (filter (fun x => posting_triple x = posting_triple p)
                 (filter_and_score flat)) = Some r
      /\ posting_triple r = posting_triple q)
  /\ (p ∈ dedupe (filter_and_score flat) -> q ∈ dedupe (filter_and_score flat) -> p = q)
  /\ dedupe (filter_and_score flat) `sublist_of` filter_and_score flat
  /\ scan_persisted (run_scan db flat) = dedupe (filter_and_score flat).
Proof.
  intros Hp Hq Ht Hc Hl.
  assert (Hpq : posting_triple p = posting_triple q)
    by (unfold posting_triple; now rewrite Ht, Hc, Hl).
  pose proof (filter_and_score_keys flat) as Hkeys.
  set (posts := filter_and_score flat) in *.
  assert (Hsub : dedupe posts `sublist_of` posts) by apply dedupe_loop_sublist.
  assert (Hkeys' : Forall (fun x => dedupe_key x = posting_triple x) (dedupe posts)).
  { apply Forall_forall. intros x Hx. rewrite Forall_forall in Hkeys.
    apply Hkeys. eapply elem_of_sublist; eassumption. }
  assert (Hone : exists r,
      filter (fun x => posting_triple x = posting_triple p) (dedupe posts) = [r]
      /\ head (filter (fun x => posting_triple x = posting_triple p) posts) = Some r
      /\ posting_triple r = posting_triple q).
  { rewrite (filter_triple_key _ _ Hkeys'), (filter_triple_key _ _ Hkeys).
    unfold dedupe. rewrite dedupe_loop_filter.
    rewrite decide_False by apply not_elem_of_empty.
    rewrite <- (filter_triple_key _ _ Hkeys).
    assert (Hin : p ∈ filter (fun x => posting_triple x = posting_triple p) posts)
      by (apply list_elem_of_filter; split; [reflexivity | exact Hp]).
    destruct (filter (fun x => posting_triple x = posting_triple p) posts)
      as [|r l] eqn:Hf.
    - inversion Hin.
    - exists r. repeat split.
      assert (Hr : r ∈ filter (fun x => posting_triple x = posting_triple p) posts)
        by (rewrite Hf; left).
      apply list_elem_of_filter in Hr as [Hr _]. congruence. }
  split; [exact Hone |]. split; [| split; [exact Hsub | apply run_scan_persisted]].
  destruct Hone as (r & Hr & _ & _). intros Hpo Hqo.
  assert (Hp1 : p ∈ filter (fun x => posting_triple x = posting_triple p) (dedupe posts))
    by (apply list_elem_of_filter; split; [reflexivity | exact Hpo]).
  assert (Hq1 : q ∈ filter (fun x => posting_triple x = posting_triple p) (dedupe posts))
    by (apply list_elem_of_filter; split; [symmetry; exact Hpq | exact Hqo]).
  rewrite Hr in Hp1, Hq1.
  apply list_elem_of_singleton in Hp1, Hq1. congruence.
Qed.

End Scanner.

(* ===================================================================== *)
(** * The theorems at concrete inputs                                     *)
(* ===================================================================== *)

(** Two postings that agree on title, company and location, the company
    being empty, with urls of two different boards: both are kept. *)
Lemma dedupe_keeps_both_when_urls_differ :
  Str.lower (title acme_post) = Str.lower (title globex_post)
  /\ Str.lower (company acme_post) = Str.lower (company globex_post)
  /\ Str.lower (location acme_post) = Str.lower (location globex_post)
  /\ dedupe accept_bracketed [acme_post; globex_post] = [acme_post; globex_post].
Proof. repeat split; vm_compute; reflexivity. Qed.

Lemma dedupe_keeps_first_per_key_witness :
  (acme_post ∈ [acme_post; globex_post; acme_repost]
   /\ acme_repost ∈ [acme_post; globex_post; acme_repost]
   /\ dedupe_key accept_bracketed acme_post = dedupe_key accept_bracketed acme_repost)
  /\ (exists r,
        filter (fun x => dedupe_key accept_bracketed x
                         = dedupe_key accept_bracketed acme_post)
          (dedupe accept_bracketed [acme_post; globex_post; acme_repost]) = [r]
        /\ head (filter (fun x => dedupe_key accept_bracketed x
                                  = dedupe_key accept_bracketed acme_post)
                   [acme_post; globex_post; acme_repost]) = Some r
        /\ dedupe_key accept_bracketed r = dedupe_key accept_bracketed acme_repost)
  /\ (acme_post ∈ dedupe accept_bracketed [acme_post; globex_post; acme_repost] ->
      acme_repost ∈ dedupe accept_bracketed [acme_post; globex_post; acme_repost] ->
      acme_post = acme_repost)
  /\ dedupe accept_bracketed [acme_post; globex_post; acme_repost]
       `sublist_of` [acme_post; globex_post; acme_repost].
Proof.
  assert (H1 : acme_post ∈ [acme_post; globex_post; acme_repost])
    by repeat constructor.
  assert (H2 : acme_repost ∈ [acme_post; globex_post; acme_repost])
    by repeat constructor.
  assert (H3 : dedupe_key accept_bracketed acme_post
               = dedupe_key accept_bracketed acme_repost)
    by (vm_compute; reflexivity).
  split; [repeat split; assumption |].
  exact (dedupe_keeps_first_per_key accept_bracketed
           [acme_post; globex_post; acme_repost] acme_post acme_repost H1 H2 H3).
Defined.

(** A board-A posting without a company and a board-B posting of the
    same company, title and location in other cases: after the
    back-fill they agree, and one record is kept. *)
Lemma dedupe_merges_identical_postings_witness :
  (normalize_and_score accept_bracketed acme_post
     ∈ filter_and_score accept_bracketed [acme_post; globex_post; acme_repost]
   /\ normalize_and_score accept_bracketed acme_repost
        ∈ filter_and_score accept_bracketed [acme_post; globex_post; acme_repost]
   /\ url (normalize_and_score accept_bracketed acme_post)
      = "https://boards.greenhouse.io/acme/jobs/1"
   /\ url (normalize_and_score accept_bracketed acme_repost)
      = "https://jobs.lever.co/acme/77")
  /\ (exists r,
        filter (fun x => posting_triple x
                         = posting_triple (normalize_and_score accept_bracketed acme_post))
          (dedupe accept_bracketed
             (filter_and_score accept_bracketed [acme_post; globex_post; acme_repost]))
        = [r]
        /\ head (filter (fun x => posting_triple x
                                  = posting_triple
                                      (normalize_and_score accept_bracketed acme_post))
                   (filter_and_score accept_bracketed
                      [acme_post; globex_post; acme_repost])) = Some r
        /\ posting_triple r
           = posting_triple (normalize_and_score accept_bracketed acme_repost)).
Proof.
  assert (H1 : normalize_and_score accept_bracketed acme_post
               ∈ filter_and_score accept_bracketed [acme_post; globex_post; acme_repost])
    by (vm_compute; repeat constructor).
  assert (H2 : normalize_and_score accept_bracketed acme_repost
               ∈ filter_and_score accept_bracketed [acme_post; globex_post; acme_repost])
    by (vm_compute; repeat constructor).
  split; [repeat split; [exact H1 | exact H2] |].
  exact (proj1 (dedupe_merges_identical_postings accept_bracketed None
                  [acme_post; globex_post; acme_repost]
                  (normalize_and_score accept_bracketed acme_post)
                  (normalize_and_score accept_bracketed acme_repost)
                  H1 H2 eq_refl eq_refl eq_refl)).
Defined.

(** A title that already holds the bonus term: one more occurrence of
    it leaves the score at 25. *)
Lemma repeated_bonus_term_keeps_score :
  Str.contains "strategy" (Str.lower (title strategy_post)) = true
  /\ heuristic_score strategy_post = 25
  /\ heuristic_score (with_title strategy_post (title strategy_post ++ " Strategy")) = 25.
Proof. repeat split; vm_compute; reflexivity. Qed.

Lemma bonus_term_raises_score_witness :
  heuristic_score operations_post = 20
  /\ heuristic_score (with_title operations_post ("" ++ title operations_post ++ " GTM")) = 25
  /\ heuristic_score operations_post
     < heuristic_score (with_title operations_post ("" ++ title operations_post ++ " GTM")).
Proof.
  split; [vm_compute; reflexivity |]. split; [vm_compute; reflexivity |].
  apply (proj1 (proj2 (bonus_term_raises_score operations_post "" " GTM")) "gtm").
  - simpl. tauto.
  - vm_compute; reflexivity.
  - vm_compute; reflexivity.
  - vm_compute; reflexivity.
Defined.

Lemma heuristic_score_clamped_witness :
  raw_score crowded_post = 105 /\ heuristic_score crowded_post = 100.
Proof.
  split; [vm_compute; reflexivity |].
  apply (proj1 (proj2 (heuristic_score_clamped crowded_post))).
  vm_compute. discriminate.
Defined.

(** A card with a title and no link is skipped by the board-A parser. *)
Lemma greenhouse_skips_card_without_link :
  card_text unlinked_card = "Sales Operations Manager"
  /\ card_href unlinked_card = None
  /\ parse_greenhouse sample_class "2024-05-01T09:30:00.000000"
       "https://boards.greenhouse.io/acme" (Some [unlinked_card]) = [].
Proof. repeat split. Qed.

Lemma normalize_company_from_url_spec_witness :
  board_url "boards.greenhouse.io" "acme-co" "https://boards.greenhouse.io/acme-co/"
  /\ normalize_company_from_url accept_bracketed "https://boards.greenhouse.io/acme-co/"
     = "acme-co".
Proof.
  assert (H : board_url "boards.greenhouse.io" "acme-co"
                "https://boards.greenhouse.io/acme-co/").
  { exists "https", "boards.greenhouse.io", "/".
    repeat split; try reflexivity. now right. }
  split; [exact H |].
  exact (proj1 (normalize_company_from_url_spec accept_bracketed
                  "https://boards.greenhouse.io/acme-co/") "acme-co" H).
Defined.

Lemma dedupe_distinct_keys_unchanged_witness :
  NoDup (map (dedupe_key accept_bracketed) [acme_post; globex_post])
  /\ dedupe accept_bracketed [acme_post; globex_post] = [acme_post; globex_post].
Proof.
  assert (H : NoDup (map (dedupe_key accept_bracketed) [acme_post; globex_post]))
    by (apply (bool_decide_unpack _); vm_compute; exact I).
  split; [exact H |].
  exact (dedupe_distinct_keys_unchanged accept_bracketed [acme_post; globex_post] H).
Defined.

Lemma upsert_jobs_keeps_urls_unique_witness :
  NoDup (map row_url [row_of accept_bracketed acme_post])
  /\ NoDup (map row_url
              (upsert_jobs accept_bracketed [acme_post; globex_post; acme_post]
                 [row_of accept_bracketed acme_post]).1).
Proof.
  assert (H : NoDup (map row_url [row_of accept_bracketed acme_post]))
    by (apply (bool_decide_unpack _); vm_compute; exact I).
  split; [exact H |].
  exact (upsert_jobs_keeps_urls_unique accept_bracketed
           [acme_post; globex_post; acme_post] [row_of accept_bracketed acme_post] H).
Defined.

Lemma upsert_jobs_all_new_witness :
  (NoDup (map url [acme_post; globex_post])
   /\ Forall (fun p => url_present (url p) [] = false) [acme_post; globex_post])
  /\ upsert_jobs accept_bracketed [acme_post; globex_post] []
     = (map (row_of accept_bracketed) [acme_post; globex_post], 2).
Proof.
  assert (H1 : NoDup (map url [acme_post; globex_post]))
    by (apply (bool_decide_unpack _); vm_compute; exact I).
  assert (H2 : Forall (fun p => url_present (url p) [] = false) [acme_post; globex_post])
    by (repeat constructor).
  split; [split; assumption |].
  exact (upsert_jobs_all_new accept_bracketed [acme_post; globex_post] [] H1 H2).
Defined.

Lemma upsert_jobs_lookup_witness :
  globex_post ∈ [acme_post; globex_post]
  /\ exists r,
       find_url (url globex_post)
         (upsert_jobs accept_bracketed [acme_post; globex_post] []).1 = Some r
       /\ row_url r = url globex_post.
Proof.
  assert (H : globex_post ∈ [acme_post; globex_post]) by (repeat constructor).
  split; [exact H |].
  destruct (upsert_jobs_lookup accept_bracketed [acme_post; globex_post] []
              globex_post H) as (r & Hf & Hu & _).
  exists r. split; assumption.
Defined.

Lemma polite_get_returns_without_brackets_witness :
  (Str.mem "[" "https://careers.initech.example/jobs" = false
   /\ Str.mem "]" "https://careers.initech.example/jobs" = false)
  /\ fetch_outcome
       (polite_get accept_bracketed ∅ 5000 (GetRaised TimeoutException)
          "https://careers.initech.example/jobs")
     = Returns None.
Proof.
  split; [split; reflexivity |].
  exact (polite_get_returns_without_brackets accept_bracketed ∅ 5000
           (GetRaised TimeoutException) "https://careers.initech.example/jobs"
           eq_refl eq_refl).
Defined.

Lemma polite_get_spaces_requests_witness :
  (urlparse_netloc accept_bracketed "https://example.com/jobs/1" = Some "example.com"
   /\ urlparse_netloc accept_bracketed "https://example.com/jobs/2" = Some "example.com")
  /\ 1200 + RATE_LIMIT_PER_HOST
     <= 1500 + fetch_slept
                 (polite_get accept_bracketed
                    (fetch_hits
                       (polite_get accept_bracketed ∅ 1000
                          (GetResponse 1200 {| status_code := 200; text := "" |})
                          "https://example.com/jobs/1"))
                    1500 (GetRaised ConnectError) "https://example.com/jobs/2").
Proof.
  split; [split; reflexivity |].
  exact (proj1 (proj2
           (polite_get_spaces_requests accept_bracketed ∅ 1000 1200 1500
              {| status_code := 200; text := "" |} (GetRaised ConnectError)
              "https://example.com/jobs/1" "https://example.com/jobs/2"
              "example.com" eq_refl eq_refl))).
Defined.

Lemma polite_get_stamps_its_host_witness :
  urlparse_netloc accept_bracketed "https://example.com/jobs/1" = Some "example.com"
  /\ fetch_hits
       (polite_get accept_bracketed ∅ 1000
          (GetResponse 1200 {| status_code := 404; text := "" |})
          "https://example.com/jobs/1") !! "example.com"
     = Some 1200.
Proof.
  split; [reflexivity |].
  exact (proj2
           (polite_get_stamps_its_host accept_bracketed ∅ 1000
              (GetResponse 1200 {| status_code := 404; text := "" |})
              "https://example.com/jobs/1" "example.com" eq_refl)).
Defined.

(** A listing of three entries whose second has a null [text]: the loop
    is abandoned there, the posting of the first entry stays, the third
    entry is never read, and the anchors of the page follow. *)
Lemma parsers_default_or_skip_witness :
  parse_lever sample_class "2024-05-01T09:30:00.000000" "https://jobs.lever.co/acme"
    (Some [EntryObject listed_item; EntryObject null_text_item; EntryObject listed_item])
    (Some [careers_anchor])
  = [ {| title := "Sales Operations Lead"; company := "acme"; location := "Austin";
         url := "https://jobs.lever.co/acme/1/apply"; source := "lever";
         posted_at := None; captured_at := "2024-05-01T09:00:00.000000";
         match_score := 0 |};
      {| title := "Sales Enablement Manager"; company := "acme"; location := "";
         url := "/acme/3"; source := "lever-html";
         posted_at := None; captured_at := "2024-05-01T09:00:00.000000";
         match_score := 0 |} ].
Proof.
  pose proof (parsers_default_or_skip accept_bracketed sample_class
                "2024-05-01T09:30:00.000000")
    as (_ & _ & _ & _ & _ & Habandon & _).
  assert (Hgood : Forall (fun e => lever_posting sample_class "2024-05-01T09:30:00.000000"
                                     "acme" "https://jobs.lever.co/acme" e <> None)
                    [EntryObject listed_item])
    by (repeat constructor; discriminate).
  exact (Habandon "https://jobs.lever.co/acme" "acme" [EntryObject listed_item]
           (EntryObject null_text_item) [EntryObject listed_item]
           (Some [careers_anchor]) eq_refl Hgood eq_refl).
Defined.

